(** * The per-peer stream of the p2p network layer (net/stream.go)

    A shallow embedding of [Stream] and of the functions that act on it:
    the send path ([SendMessage], [Write], [WriteNebMessage], ...), the
    read loop, the write loop, the message handler with its handshake
    handlers, and [close].

    The Go code is concurrent.  Every function is embedded as a state
    transformer on the stream that either finishes or parks at a blocking
    channel send or at the mutex, keeping the rest of the function as a
    continuation, so that goroutines can be interleaved at their blocking
    points.  The collaborators of the stream (route table, stream manager,
    net service, transport) are observed through a trace of the calls made
    on them. *)

From Stdlib Require Import ZArith String List Lia Bool.
From stdpp Require Import base gmap strings list.
Import ListNotations.
Local Open Scope Z_scope.

(** ** Constants of the package *)

Definition ClientVersion : string := "0.3.0".
Definition NebProtocolID : string := "/neb/1.0.0".
Definition HELLO : string := "hello".
Definition OK : string := "ok".
Definition BYE : string := "bye".
Definition SYNCROUTE : string := "syncroute".
Definition ROUTETABLE : string := "routetable".
Definition RECVEDMSG : string := "recvedmsg".

(** Stream status (an [iota] enumeration in the source). *)
Inductive Status :=
| streamStatusInit
| streamStatusHandshakeSucceed
| streamStatusClosed.

#[global] Instance Status_eq_dec : EqDecision Status.
Proof. solve_decision. Defined.

(** Go [error] values.  The three sentinels of the file are compared by
    identity in the source; every other error (transport, protobuf,
    [errors.New]) is an [ErrOther]. *)
Inductive error :=
| ErrShouldCloseConnectionAndExitLoop
| ErrStreamIsNotConnected
| ErrUncompressMessageFailed
| ErrOther (msg : string).

#[global] Instance error_eq_dec : EqDecision error.
Proof. solve_decision. Defined.

Definition byte := Byte.byte.
Definition byte_to_Z (b : byte) : Z := Z.of_N (Byte.to_N b).

#[global] Instance byte_eq_dec : EqDecision byte := Byte.byte_eq_dec.

(** Modelled from the spec: the message priorities are declared outside
    net/stream.go; the spec gives them as the enumeration HIGH, NORMAL,
    LOW.  [SendMessage] switches on an [int], so a priority is an integer
    and any value other than the first two takes the [default] branch. *)
Definition MessagePriorityHigh : Z := 0.
Definition MessagePriorityNormal : Z := 1.
Definition MessagePriorityLow : Z := 2.

(** A framed message.  [NebMessage] is declared outside net/stream.go; the
    record has one field per accessor the stream calls on it. *)
Record NebMessage := mkNebMessage {
  MessageName : string;
  ChainID : Z;
  Reserved : list byte;
  DataLength : nat;
  Data : list byte;
  Content : list byte
}.

(** Payload schemas of the handshake and of the route-table exchange. *)
Record HelloMsg := mkHello { NodeId : string; HelloClientVersion : string }.
Record PeerInfo := mkPeerInfo { Id : string; Addrs : list string }.

#[global] Instance PeerInfo_eq_dec : EqDecision PeerInfo.
Proof. solve_decision. Defined.

Inductive ProtoMessage :=
| PbHello (m : HelloMsg)
| PbOK (m : HelloMsg)
| PbPeers (peers : list PeerInfo).

(** ** The transport: the [libnet.Stream] interface *)

Class Transport := {
  Conn : Type;
  SetWriteDeadline : Conn -> Z -> option error * Conn;
  conn_Write : Conn -> list byte -> (Z * option error) * Conn;
  conn_Close : Conn -> Conn
}.

(** Calls made on the collaborators and on the transport, and the two
    single-shot channel sends, in the order they happen.  A transport
    event records the call, whatever the transport answers. *)
Inductive Event :=
| RemoveStream
| RemovePeerStream
| AddPeerStream
| AddPeers (local_id : string) (peers : list PeerInfo)
| PutMessage (name pid : string) (data : list byte)
| RecordRecvMessage (checksum : Z)
| HandshakeSucceedSignal
| QuitWriteSignal
| TransportSetWriteDeadline (deadline : Z)
| TransportWrite (data : list byte)
| TransportClose.

#[global] Instance Event_eq_dec : EqDecision Event.
Proof. solve_decision. Defined.

(** ** The stream *)

(** The fields of the Go struct, with each channel as the list of the
    values buffered in it (oldest first) and the mutex as a flag.
    [clock] is what [time.Now()] returns, in nanoseconds since the epoch
    ([Add] is addition, [Unix()] the quotient by a second), and [trace]
    records the events so far.  Metrics and logging are left out. *)
Record Stream `{Transport} := mkStream {
  syncMutex : bool;
  pid : string;
  addr : option string;
  stream : option Conn;
  handshakeSucceedCh : list bool;
  messageNotifChan : list Z;
  highPriorityMessageChan : list NebMessage;
  normalPriorityMessageChan : list NebMessage;
  lowPriorityMessageChan : list NebMessage;
  quitWriteCh : list bool;
  status : Status;
  connectedAt : Z;
  latestReadAt : Z;
  latestWriteAt : Z;
  msgCount : gmap string Z;
  compressFlag : gmap string Z;
  clock : Z;
  trace : list Event
}.

Arguments mkStream {_} _ _ _ _ _ _ _ _ _ _ _ _ _ _ _ _ _ _.

(** Channel capacities, as given to [make] in [newStreamInstance]. *)
Definition cap_handshakeSucceedCh : nat := 1.
Definition cap_messageNotifChan : nat := 6 * 1024.
Definition cap_priorityMessageChan : nat := 2 * 1024.
Definition cap_quitWriteCh : nat := 1.

(** ** What the stream uses from the rest of the package and from its node *)

Class Package `{Transport} := {
  (* peer.ID *)
  peer_String : string -> string;
  peer_Pretty : string -> string;
  (* the node *)
  node_id : string;
  node_ChainID : Z;
  host_NewStream : string -> string -> error + (Conn * string);
  routeTable_GetRandomPeers : string -> list PeerInfo;
  (* neb_message.go *)
  NebMessageHeaderLength : nat;
  NebMessageHeaderLength_pos : (0 < NebMessageHeaderLength)%nat;
  DefaultReserved : list byte;
  NewNebMessage : Stream -> list byte -> Z -> string -> list byte -> error + NebMessage;
  ParseNebMessage : list byte -> error + NebMessage;
  ParseMessageData : NebMessage -> list byte -> error + NebMessage;
  (* snappy, protobuf, crc32 *)
  snappy_Decode : list byte -> error + list byte;
  proto_Marshal : ProtoMessage -> error + list byte;
  HelloMessageFromProto : list byte -> error + HelloMsg;
  OKMessageFromProto : list byte -> error + HelloMsg;
  proto_Unmarshal_Peers : list byte -> error + list PeerInfo;
  crc32_ChecksumIEEE : list byte -> Z
}.

(** ** Field updates *)

Section Updates.
Context {Tr : Transport}.

Definition set_syncMutex (v : bool) (s : Stream) : Stream :=
  mkStream v (pid s) (addr s) (stream s) (handshakeSucceedCh s)
    (messageNotifChan s) (highPriorityMessageChan s)
    (normalPriorityMessageChan s) (lowPriorityMessageChan s) (quitWriteCh s)
    (status s) (connectedAt s) (latestReadAt s) (latestWriteAt s)
    (msgCount s) (compressFlag s) (clock s) (trace s).

Definition set_addr (v : option string) (s : Stream) : Stream :=
  mkStream (syncMutex s) (pid s) v (stream s) (handshakeSucceedCh s)
    (messageNotifChan s) (highPriorityMessageChan s)
    (normalPriorityMessageChan s) (lowPriorityMessageChan s) (quitWriteCh s)
    (status s) (connectedAt s) (latestReadAt s) (latestWriteAt s)
    (msgCount s) (compressFlag s) (clock s) (trace s).

Definition set_stream (v : option Conn) (s : Stream) : Stream :=
  mkStream (syncMutex s) (pid s) (addr s) v (handshakeSucceedCh s)
    (messageNotifChan s) (highPriorityMessageChan s)
    (normalPriorityMessageChan s) (lowPriorityMessageChan s) (quitWriteCh s)
    (status s) (connectedAt s) (latestReadAt s) (latestWriteAt s)
    (msgCount s) (compressFlag s) (clock s) (trace s).

Definition set_handshakeSucceedCh (v : list bool) (s : Stream) : Stream :=
  mkStream (syncMutex s) (pid s) (addr s) (stream s) v
    (messageNotifChan s) (highPriorityMessageChan s)
    (normalPriorityMessageChan s) (lowPriorityMessageChan s) (quitWriteCh s)
    (status s) (connectedAt s) (latestReadAt s) (latestWriteAt s)
    (msgCount s) (compressFlag s) (clock s) (trace s).

Definition set_messageNotifChan (v : list Z) (s : Stream) : Stream :=
  mkStream (syncMutex s) (pid s) (addr s) (stream s) (handshakeSucceedCh s)
    v (highPriorityMessageChan s)
    (normalPriorityMessageChan s) (lowPriorityMessageChan s) (quitWriteCh s)
    (status s) (connectedAt s) (latestReadAt s) (latestWriteAt s)
    (msgCount s) (compressFlag s) (clock s) (trace s).

Definition set_highPriorityMessageChan (v : list NebMessage) (s : Stream) : Stream :=
  mkStream (syncMutex s) (pid s) (addr s) (stream s) (handshakeSucceedCh s)
    (messageNotifChan s) v
    (normalPriorityMessageChan s) (lowPriorityMessageChan s) (quitWriteCh s)
    (status s) (connectedAt s) (latestReadAt s) (latestWriteAt s)
    (msgCount s) (compressFlag s) (clock s) (trace s).

Definition set_normalPriorityMessageChan (v : list NebMessage) (s : Stream) : Stream :=
  mkStream (syncMutex s) (pid s) (addr s) (stream s) (handshakeSucceedCh s)
    (messageNotifChan s) (highPriorityMessageChan s)
    v (lowPriorityMessageChan s) (quitWriteCh s)
    (status s) (connectedAt s) (latestReadAt s) (latestWriteAt s)
    (msgCount s) (compressFlag s) (clock s) (trace s).

Definition set_lowPriorityMessageChan (v : list NebMessage) (s : Stream) : Stream :=
  mkStream (syncMutex s) (pid s) (addr s) (stream s) (handshakeSucceedCh s)
    (messageNotifChan s) (highPriorityMessageChan s)
    (normalPriorityMessageChan s) v (quitWriteCh s)
    (status s) (connectedAt s) (latestReadAt s) (latestWriteAt s)
    (msgCount s) (compressFlag s) (clock s) (trace s).

Definition set_quitWriteCh (v : list bool) (s : Stream) : Stream :=
  mkStream (syncMutex s) (pid s) (addr s) (stream s) (handshakeSucceedCh s)
    (messageNotifChan s) (highPriorityMessageChan s)
    (normalPriorityMessageChan s) (lowPriorityMessageChan s) v
    (status s) (connectedAt s) (latestReadAt s) (latestWriteAt s)
    (msgCount s) (compressFlag s) (clock s) (trace s).

Definition set_status (v : Status) (s : Stream) : Stream :=
  mkStream (syncMutex s) (pid s) (addr s) (stream s) (handshakeSucceedCh s)
    (messageNotifChan s) (highPriorityMessageChan s)
    (normalPriorityMessageChan s) (lowPriorityMessageChan s) (quitWriteCh s)
    v (connectedAt s) (latestReadAt s) (latestWriteAt s)
    (msgCount s) (compressFlag s) (clock s) (trace s).

Definition set_latestReadAt (v : Z) (s : Stream) : Stream :=
  mkStream (syncMutex s) (pid s) (addr s) (stream s) (handshakeSucceedCh s)
    (messageNotifChan s) (highPriorityMessageChan s)
    (normalPriorityMessageChan s) (lowPriorityMessageChan s) (quitWriteCh s)
    (status s) (connectedAt s) v (latestWriteAt s)
    (msgCount s) (compressFlag s) (clock s) (trace s).

Definition set_latestWriteAt (v : Z) (s : Stream) : Stream :=
  mkStream (syncMutex s) (pid s) (addr s) (stream s) (handshakeSucceedCh s)
    (messageNotifChan s) (highPriorityMessageChan s)
    (normalPriorityMessageChan s) (lowPriorityMessageChan s) (quitWriteCh s)
    (status s) (connectedAt s) (latestReadAt s) v
    (msgCount s) (compressFlag s) (clock s) (trace s).

Definition set_msgCount (v : gmap string Z) (s : Stream) : Stream :=
  mkStream (syncMutex s) (pid s) (addr s) (stream s) (handshakeSucceedCh s)
    (messageNotifChan s) (highPriorityMessageChan s)
    (normalPriorityMessageChan s) (lowPriorityMessageChan s) (quitWriteCh s)
    (status s) (connectedAt s) (latestReadAt s) (latestWriteAt s)
    v (compressFlag s) (clock s) (trace s).

Definition set_compressFlag (v : gmap string Z) (s : Stream) : Stream :=
  mkStream (syncMutex s) (pid s) (addr s) (stream s) (handshakeSucceedCh s)
    (messageNotifChan s) (highPriorityMessageChan s)
    (normalPriorityMessageChan s) (lowPriorityMessageChan s) (quitWriteCh s)
    (status s) (connectedAt s) (latestReadAt s) (latestWriteAt s)
    (msgCount s) v (clock s) (trace s).

Definition set_trace (v : list Event) (s : Stream) : Stream :=
  mkStream (syncMutex s) (pid s) (addr s) (stream s) (handshakeSucceedCh s)
    (messageNotifChan s) (highPriorityMessageChan s)
    (normalPriorityMessageChan s) (lowPriorityMessageChan s) (quitWriteCh s)
    (status s) (connectedAt s) (latestReadAt s) (latestWriteAt s)
    (msgCount s) (compressFlag s) (clock s) v.

(** [newStreamInstance]: every channel empty, status INIT. *)
Definition newStreamInstance (p : string) (a : option string)
    (c : option Conn) (now : Z) : Stream :=
  mkStream false p a c [] [] [] [] [] [] streamStatusInit
    (now / 1000000000) 0 0 ∅ ∅ now [].

(** ** Goroutines that may park

    A call either finishes with a value and the stream it leaves, or parks:
    [Blocked w s k] is a goroutine stopped in state [s] at the blocking
    operation [w], which will go on as [k] from the stream it finds when it
    is woken up. *)

Inductive Wait :=
| WaitLock
| WaitSendHandshakeSucceed
| WaitSendHighPriority
| WaitSendQuitWrite.

Inductive Res (A : Type) :=
| Done (a : A) (s : Stream)
| Blocked (w : Wait) (s : Stream) (k : Stream -> Res A).

Arguments Done {A} a s.
Arguments Blocked {A} w s k.

Definition M (A : Type) : Type := Stream -> Res A.

Definition ret {A} (a : A) : M A := fun s => Done a s.

Fixpoint bind_res {A B} (r : Res A) (f : A -> M B) : Res B :=
  match r with
  | Done a s => f a s
  | Blocked w s k => Blocked w s (fun s1 => bind_res (k s1) f)
  end.

Definition bind {A B} (m : M A) (f : A -> M B) : M B :=
  fun s => bind_res (m s) f.

Definition gets {A} (f : Stream -> A) : M A := fun s => Done (f s) s.
Definition modify (f : Stream -> Stream) : M unit := fun s => Done tt (f s).
Definition emit (e : Event) : M unit :=
  modify (fun s => set_trace (trace s ++ [e]) s).

(** The stream a call leaves in shared memory, finished or parked. *)
Definition after {A} (r : Res A) : Stream :=
  match r with
  | Done _ s => s
  | Blocked _ s _ => s
  end.

(** When the operation a goroutine is parked at can go through. *)
Definition ready (w : Wait) (s : Stream) : bool :=
  match w with
  | WaitLock => negb (syncMutex s)
  | WaitSendHandshakeSucceed =>
      bool_decide (length (handshakeSucceedCh s) < cap_handshakeSucceedCh)%nat
  | WaitSendHighPriority =>
      bool_decide (length (highPriorityMessageChan s) < cap_priorityMessageChan)%nat
  | WaitSendQuitWrite =>
      bool_decide (length (quitWriteCh s) < cap_quitWriteCh)%nat
  end.

(** Waking a parked goroutine up on the stream [s1]. *)
Definition resume {A} (r : Res A) (s1 : Stream) : Res A :=
  match r with
  | Done a s => Done a s
  | Blocked w _ k => if ready w s1 then k s1 else Blocked w s1 k
  end.

(** A blocking operation: goes through when ready, parks otherwise. *)
Definition blocking (w : Wait) (f : Stream -> Stream) : M unit :=
  fun s => if ready w s then Done tt (f s) else Blocked w s (fun s1 => Done tt (f s1)).

End Updates.

Arguments Done {Tr A} a s.
Arguments Blocked {Tr A} w s k.

Notation "'let*' x ':=' m 'in' k" := (bind m (fun x => k))
  (at level 10, x pattern, m at level 200, k at level 200).

(** ** Time *)

Definition Second : Z := 1000000000.

(** Two's-complement wrap-around of Go's [int64] (and of [int]). *)
Definition wrap64 (z : Z) : Z := (z + 2 ^ 63) mod 2 ^ 64 - 2 ^ 63.

(** [time.Duration(len(data)/1024/5+1) * time.Second]: integer division
    truncates, the product is an [int64] count of nanoseconds. *)
Definition writeTimeout (data : list byte) : Z :=
  wrap64 ((Z.of_nat (length data) ÷ 1024 ÷ 5 + 1) * Second).

(** [CheckClientVersionCompatibility] *)
Definition CheckClientVersionCompatibility (v1 v2 : string) : bool :=
  bool_decide (v1 = v2).

(** ** The operations of the stream *)

Section StreamOps.
Context {Tr : Transport} {Pk : Package}.

(** Channel operations.  A plain send blocks while the buffer is full; a
    send in a [select] with a [default] branch reports whether it went
    through. *)
Definition send_handshakeSucceedCh (v : bool) : M unit :=
  blocking WaitSendHandshakeSucceed
    (fun s => set_trace (trace s ++ [HandshakeSucceedSignal])
                (set_handshakeSucceedCh (handshakeSucceedCh s ++ [v]) s)).

Definition send_quitWriteCh (v : bool) : M unit :=
  blocking WaitSendQuitWrite
    (fun s => set_trace (trace s ++ [QuitWriteSignal])
                (set_quitWriteCh (quitWriteCh s ++ [v]) s)).

Definition send_highPriorityMessageChan (m : NebMessage) : M unit :=
  blocking WaitSendHighPriority
    (fun s => set_highPriorityMessageChan (highPriorityMessageChan s ++ [m]) s).

Definition trysend_normalPriorityMessageChan (m : NebMessage) : M bool :=
  fun s =>
    if bool_decide (length (normalPriorityMessageChan s) < cap_priorityMessageChan)%nat
    then Done true (set_normalPriorityMessageChan (normalPriorityMessageChan s ++ [m]) s)
    else Done false s.

Definition trysend_lowPriorityMessageChan (m : NebMessage) : M bool :=
  fun s =>
    if bool_decide (length (lowPriorityMessageChan s) < cap_priorityMessageChan)%nat
    then Done true (set_lowPriorityMessageChan (lowPriorityMessageChan s ++ [m]) s)
    else Done false s.

Definition trysend_messageNotifChan (v : Z) : M bool :=
  fun s =>
    if bool_decide (length (messageNotifChan s) < cap_messageNotifChan)%nat
    then Done true (set_messageNotifChan (messageNotifChan s ++ [v]) s)
    else Done false s.

(** [sync.Mutex] *)
Definition Lock : M unit := blocking WaitLock (set_syncMutex true).
Definition Unlock : M unit := modify (set_syncMutex false).

Definition IsConnected (s : Stream) : bool :=
  match stream s with Some _ => true | None => false end.

Definition IsHandshakeSucceed (s : Stream) : bool :=
  bool_decide (status s = streamStatusHandshakeSucceed).

(** [close]: the deferred [Unlock] runs at each return. *)
Definition close (reason : error) : M unit :=
  let* _ := Lock in
  let* st := gets status in
  if bool_decide (st = streamStatusClosed) then Unlock
  else
    let* _ := modify (set_status streamStatusClosed) in
    let* _ := emit RemoveStream in
    let* _ := emit RemovePeerStream in
    let* _ := send_quitWriteCh true in
    let* c := gets stream in
    let* _ := match c with
              | Some c =>
                  let* _ := emit TransportClose in
                  modify (set_stream (Some (conn_Close c)))
              | None => ret tt
              end in
    Unlock.

(** [Write] *)
Definition Write (data : list byte) : M (option error) :=
  let* c := gets stream in
  match c with
  | None =>
      let* _ := close ErrStreamIsNotConnected in
      ret (Some ErrStreamIsNotConnected)
  | Some c =>
      let* now := gets clock in
      let deadline := now + writeTimeout data in
      let '(err, c) := SetWriteDeadline c deadline in
      let* _ := emit (TransportSetWriteDeadline deadline) in
      let* _ := modify (set_stream (Some c)) in
      match err with
      | Some err => ret (Some err)
      | None =>
          let '((n, err), c) := conn_Write c data in
          let* _ := emit (TransportWrite data) in
          let* _ := modify (set_stream (Some c)) in
          match err with
          | Some err =>
              let* _ := close err in
              ret (Some err)
          | None =>
              let* _ := modify (fun s => set_latestWriteAt (clock s / Second) s) in
              ret None
          end
      end
  end.

(** [WriteNebMessage] (the metrics and the time stamps kept in the message
    do not touch the stream) *)
Definition WriteNebMessage (message : NebMessage) : M (option error) :=
  Write (Content message).

(** [WriteMessage] *)
Definition WriteMessage (messageName : string) (data : list byte) : M (option error) :=
  let* s := gets id in
  match NewNebMessage s DefaultReserved 0 messageName data with
  | inl err => ret (Some err)
  | inr message => WriteNebMessage message
  end.

(** [WriteProtoMessage] *)
Definition WriteProtoMessage (messageName : string) (pb : ProtoMessage) : M (option error) :=
  match proto_Marshal pb with
  | inl err => ret (Some err)
  | inr data => WriteMessage messageName data
  end.

(** [SendMessage] *)
Definition SendMessage (messageName : string) (data : list byte) (priority : Z)
    : M (option error) :=
  let* s := gets id in
  match NewNebMessage s DefaultReserved 0 messageName data with
  | inl err => ret (Some err)
  | inr message =>
      let notify :=
        let* _ := trysend_messageNotifChan 1 in
        ret None in
      if bool_decide (priority = MessagePriorityHigh) then
        let* _ := send_highPriorityMessageChan message in
        notify
      else if bool_decide (priority = MessagePriorityNormal) then
        let* sent := trysend_normalPriorityMessageChan message in
        if sent : bool then notify else ret None
      else
        let* sent := trysend_lowPriorityMessageChan message in
        if sent : bool then notify else ret None
  end.

(** [SendProtoMessage] *)
Definition SendProtoMessage (messageName : string) (pb : ProtoMessage) (priority : Z)
    : M (option error) :=
  match proto_Marshal pb with
  | inl err => ret (Some err)
  | inr data => SendMessage messageName data priority
  end.

(** [Connect] *)
Definition Connect : M (option error) :=
  let* p := gets pid in
  match host_NewStream p NebProtocolID with
  | inl err => ret (Some err)
  | inr (c, a) =>
      let* _ := modify (set_stream (Some c)) in
      let* _ := modify (set_addr (Some a)) in
      ret None
  end.

(** [Bye] *)
Definition Bye : M unit :=
  let* _ := WriteMessage BYE [] in
  close (ErrOther "bye: force close").

Definition onBye (message : NebMessage) : M (option error) :=
  ret (Some ErrShouldCloseConnectionAndExitLoop).

(** [Hello] *)
Definition Hello : M (option error) :=
  WriteProtoMessage HELLO (PbHello (mkHello (peer_String node_id) ClientVersion)).

(** [Ok] *)
Definition Ok : M (option error) :=
  WriteProtoMessage OK (PbOK (mkHello (peer_String node_id) ClientVersion)).

(** [finishHandshake] *)
Definition finishHandshake : M unit :=
  let* _ := modify (set_status streamStatusHandshakeSucceed) in
  send_handshakeSucceedCh true.

(** The test shared by [onHello] and [onOk]. *)
Definition invalid_client (msg : HelloMsg) (s : Stream) : bool :=
  negb (bool_decide (NodeId msg = peer_String (pid s)))
  || negb (CheckClientVersionCompatibility ClientVersion (HelloClientVersion msg)).

(** [onHello] *)
Definition onHello (message : NebMessage) (data : list byte) : M (option error) :=
  match HelloMessageFromProto data with
  | inl _ => ret (Some ErrShouldCloseConnectionAndExitLoop)
  | inr msg =>
      let* bad := gets (invalid_client msg) in
      if bad : bool then ret (Some ErrShouldCloseConnectionAndExitLoop)
      else
        let* _ := emit AddPeerStream in
        let* _ := finishHandshake in
        Ok
  end.

(** [onOk] *)
Definition onOk (message : NebMessage) (data : list byte) : M (option error) :=
  match OKMessageFromProto data with
  | inl _ => ret (Some ErrShouldCloseConnectionAndExitLoop)
  | inr msg =>
      let* bad := gets (invalid_client msg) in
      if bad : bool then ret (Some ErrShouldCloseConnectionAndExitLoop)
      else
        let* _ := emit AddPeerStream in
        let* _ := finishHandshake in
        ret None
  end.

(** [SyncRoute] *)
Definition SyncRoute : M (option error) :=
  SendMessage SYNCROUTE [] MessagePriorityHigh.

(** [RouteTable] *)
Definition RouteTable : M (option error) :=
  let* p := gets pid in
  let peers := routeTable_GetRandomPeers p in
  let msg := PbPeers (map (fun v => mkPeerInfo (peer_Pretty (Id v)) (Addrs v)) peers) in
  SendProtoMessage ROUTETABLE msg MessagePriorityHigh.

Definition onSyncRoute (message : NebMessage) : M (option error) := RouteTable.

(** [onRouteTable] *)
Definition onRouteTable (message : NebMessage) (data : list byte) : M (option error) :=
  match proto_Unmarshal_Peers data with
  | inl _ => ret (Some ErrShouldCloseConnectionAndExitLoop)
  | inr peers =>
      let* _ := emit (AddPeers node_id peers) in
      ret None
  end.

(** The compression bit: [message.Reserved()[0] & 0x80].  The reserved
    field is a fixed-width slice of the header, so index 0 exists. *)
Definition compressFlag_of (message : NebMessage) : Z :=
  Z.land (byte_to_Z (hd Byte.x00 (Reserved message))) 128.

(** The bookkeeping at the head of [handleMessage]. *)
Definition count_message (message : NebMessage) (s : Stream) : Stream :=
  let messageName := MessageName message in
  let s := set_compressFlag
             (<[peer_Pretty (pid s) := compressFlag_of message]> (compressFlag s)) s in
  set_msgCount
    (<[messageName := wrap64 (default 0 (msgCount s !! messageName) + 1)]> (msgCount s)) s.

(** [handleMessage] *)
Definition handleMessage (message : NebMessage) : M (option error) :=
  let messageName := MessageName message in
  let compressFlag := compressFlag_of message in
  let* _ := modify (count_message message) in
  let uncompressed :=
    if negb (bool_decide (messageName = HELLO)) && bool_decide (compressFlag > 0)
    then snappy_Decode (Data message)
    else inr (Data message) in
  match uncompressed with
  | inl _ => ret (Some ErrUncompressMessageFailed)
  | inr data =>
      if bool_decide (messageName = HELLO) then onHello message data
      else if bool_decide (messageName = OK) then onOk message data
      else if bool_decide (messageName = BYE) then onBye message
      else
        let* st := gets status in
        if negb (bool_decide (st = streamStatusHandshakeSucceed))
        then ret (Some ErrShouldCloseConnectionAndExitLoop)
        else if bool_decide (messageName = SYNCROUTE) then onSyncRoute message
        else if bool_decide (messageName = ROUTETABLE) then onRouteTable message data
        else
          let* p := gets pid in
          let* _ := emit (PutMessage messageName (peer_Pretty p) data) in
          let* _ := emit (RecordRecvMessage (crc32_ChecksumIEEE data)) in
          ret None
  end.

(** *** The read loop *)

(** How one pass through the body of the inner [for] ends. *)
Inductive InnerOutcome :=
| InnerBreak (message : option NebMessage) (messageBuffer : list byte)
| InnerReturn
| InnerNext (messageBuffer : list byte).

(** From "waiting for data" to "reset message". *)
Definition readLoop_data (message : NebMessage) (messageBuffer : list byte)
    : M InnerOutcome :=
  if bool_decide (length messageBuffer < DataLength message)%nat
  then ret (InnerBreak (Some message) messageBuffer)
  else
    match ParseMessageData message messageBuffer with
    | inl _ =>
        let* _ := Bye in
        ret InnerReturn
    | inr message =>
        let messageBuffer := drop (DataLength message) messageBuffer in
        let* err := handleMessage message in
        if bool_decide (err = Some ErrShouldCloseConnectionAndExitLoop)
        then
          let* _ := Bye in
          ret InnerReturn
        else ret (InnerNext messageBuffer)
    end.

(** One pass through the body of the inner [for]. *)
Definition readLoop_body (message : option NebMessage) (messageBuffer : list byte)
    : M InnerOutcome :=
  match message with
  | Some message => readLoop_data message messageBuffer
  | None =>
      if bool_decide (length messageBuffer < NebMessageHeaderLength)%nat
      then ret (InnerBreak None messageBuffer)
      else
        match ParseNebMessage messageBuffer with
        | inl _ =>
            let* _ := Bye in
            ret InnerReturn
        | inr message =>
            if negb (bool_decide (node_ChainID = ChainID message))
            then
              let* _ := Bye in
              ret InnerReturn
            else
              readLoop_data message (drop NebMessageHeaderLength messageBuffer)
        end
  end.

(** The inner [for]: [fuel] bounds the number of passes, and [InnerNext]
    comes out only when it is used up. *)
Fixpoint readLoop_inner (fuel : nat) (message : option NebMessage)
    (messageBuffer : list byte) : M InnerOutcome :=
  match fuel with
  | O => ret (InnerNext messageBuffer)
  | S fuel =>
      let* o := readLoop_body message messageBuffer in
      match o with
      | InnerNext messageBuffer => readLoop_inner fuel None messageBuffer
      | _ => ret o
      end
  end.

Inductive LoopOutcome :=
| LoopReturn
| LoopAwaiting.

(** The outer [for], over what the successive calls of [s.stream.Read]
    return.  When the list is used up the goroutine is waiting in [Read]. *)
Fixpoint readLoop_reads (reads : list (error + list byte))
    (message : option NebMessage) (messageBuffer : list byte) : M LoopOutcome :=
  match reads with
  | [] => ret LoopAwaiting
  | inl err :: _ =>
      let* _ := close err in
      ret LoopReturn
  | inr chunk :: reads =>
      let messageBuffer := messageBuffer ++ chunk in
      let* _ := modify (fun s => set_latestReadAt (clock s / Second) s) in
      let* o := readLoop_inner (S (S (length messageBuffer))) message messageBuffer in
      match o with
      | InnerBreak message messageBuffer => readLoop_reads reads message messageBuffer
      | InnerReturn => ret LoopReturn
      | InnerNext messageBuffer => readLoop_reads reads None messageBuffer
      end
  end.

(** [readLoop] *)
Definition readLoop (reads : list (error + list byte)) : M LoopOutcome :=
  let* connected := gets IsConnected in
  if connected : bool then readLoop_reads reads None []
  else
    let* err := Connect in
    match err with
    | Some err =>
        let* _ := close err in
        ret LoopReturn
    | None =>
        let* err := Hello in
        match err with
        | Some err =>
            let* _ := close err in
            ret LoopReturn
        | None => readLoop_reads reads None []
        end
    end.

(** *** The write loop *)

(** Which case of a [select] the runtime takes. *)
Inductive HandshakeWake :=
| WakeHandshakeSucceed
| WakeHandshakeQuit
| WakeHandshakeTimeout.

Inductive DrainWake :=
| WakeQuit
| WakeNotif.

(** The three [select]s with [default] under [case <-s.messageNotifChan]. *)
Definition writeLoop_notified : M unit :=
  let* high := gets highPriorityMessageChan in
  match high with
  | message :: rest =>
      let* _ := modify (set_highPriorityMessageChan rest) in
      let* _ := WriteNebMessage message in
      ret tt
  | [] =>
      let* normal := gets normalPriorityMessageChan in
      match normal with
      | message :: rest =>
          let* _ := modify (set_normalPriorityMessageChan rest) in
          let* _ := WriteNebMessage message in
          ret tt
      | [] =>
          let* low := gets lowPriorityMessageChan in
          match low with
          | message :: rest =>
              let* _ := modify (set_lowPriorityMessageChan rest) in
              let* _ := WriteNebMessage message in
              ret tt
          | [] => ret tt
          end
      end
  end.

(** The drain phase: the [for] around the [select] on the quit channel and
    the notification channel.  A case can be taken only when its channel
    holds a value; otherwise the goroutine stays in the [select]. *)
Fixpoint writeLoop_drain (wakes : list DrainWake) : M LoopOutcome :=
  match wakes with
  | [] => ret LoopAwaiting
  | WakeQuit :: _ =>
      let* q := gets quitWriteCh in
      match q with
      | _ :: q =>
          let* _ := modify (set_quitWriteCh q) in
          ret LoopReturn
      | [] => ret LoopAwaiting
      end
  | WakeNotif :: wakes =>
      let* n := gets messageNotifChan in
      match n with
      | _ :: n =>
          let* _ := modify (set_messageNotifChan n) in
          let* _ := writeLoop_notified in
          writeLoop_drain wakes
      | [] => ret LoopAwaiting
      end
  end.

(** [writeLoop] *)
Definition writeLoop (wake : HandshakeWake) (wakes : list DrainWake) : M LoopOutcome :=
  match wake with
  | WakeHandshakeSucceed =>
      let* h := gets handshakeSucceedCh in
      match h with
      | _ :: h =>
          let* _ := modify (set_handshakeSucceedCh h) in
          writeLoop_drain wakes
      | [] => ret LoopAwaiting
      end
  | WakeHandshakeQuit =>
      let* q := gets quitWriteCh in
      match q with
      | _ :: q =>
          let* _ := modify (set_quitWriteCh q) in
          ret LoopReturn
      | [] => ret LoopAwaiting
      end
  | WakeHandshakeTimeout =>
      let* _ := close (ErrOther "Handshake timeout") in
      ret LoopReturn
  end.

End StreamOps.

(** ** A concrete transport and package

    A small in-memory transport and a one-byte-field framing, used to run
    the operations on concrete streams. *)

Module Sample.

(** A connection remembers what was written and whether it was closed;
    once closed, every call on it fails.  On a broken connection (the peer
    went away) the deadline can still be set but writing fails. *)
Record conn := mkConn {
  conn_closed : bool;
  conn_broken : bool;
  conn_written : list (list byte)
}.

Definition fresh_conn : conn := mkConn false false [].
Definition broken_conn : conn := mkConn false true [].

#[local] Instance transport : Transport := {|
  Conn := conn;
  SetWriteDeadline c _ :=
    if conn_closed c then (Some (ErrOther "stream closed"), c) else (None, c);
  conn_Write c data :=
    if conn_closed c then ((0, Some (ErrOther "stream closed")), c)
    else if conn_broken c then ((0, Some (ErrOther "broken pipe")), c)
    else ((Z.of_nat (length data), None),
          mkConn false false (conn_written c ++ [data]));
  conn_Close c := mkConn true (conn_broken c) (conn_written c)
|}.

Definition name_width : nat := 12.
Definition header_length : nat := 15.

Definition byte_of_nat (n : nat) : byte :=
  default Byte.x00 (Byte.of_N (N.of_nat n)).

Definition pad_name (name : string) : list byte :=
  let b := list_byte_of_string name in
  b ++ repeat Byte.x00 (name_width - length b).

Fixpoint until_nul (l : list byte) : list byte :=
  match l with
  | [] => []
  | b :: l => if Byte.eqb b Byte.x00 then [] else b :: until_nul l
  end.

(** Header: chain id, reserved byte, padded name, payload length. *)
Definition new_message (reserved : list byte) (name : string) (data : list byte)
    : error + NebMessage :=
  if bool_decide (255 < length data)%nat then inl (ErrOther "data length exceeds")
  else if bool_decide (name_width < String.length name)%nat
  then inl (ErrOther "message name exceeds")
  else
    let r := hd Byte.x00 reserved in
    let header := [Byte.x01; r] ++ pad_name name ++ [byte_of_nat (length data)] in
    inr (mkNebMessage name 1 [r] (length data) data (header ++ data)).

Definition parse_header (buf : list byte) : error + NebMessage :=
  match buf with
  | c :: r :: rest =>
      let name := string_of_list_byte (until_nul (take name_width rest)) in
      let len := N.to_nat (Byte.to_N (nth name_width rest Byte.x00)) in
      inr (mkNebMessage name (byte_to_Z c) [r] len [] (take header_length buf))
  | _ => inl (ErrOther "invalid header")
  end.

Definition parse_data (m : NebMessage) (buf : list byte) : error + NebMessage :=
  let data := take (DataLength m) buf in
  inr (mkNebMessage (MessageName m) (ChainID m) (Reserved m) (DataLength m)
         data (Content m ++ data)).

(** A stand-in for snappy: a length byte followed by that many literal
    bytes.  Like snappy, it rejects the empty input. *)
Definition decode (src : list byte) : error + list byte :=
  match src with
  | [] => inl (ErrOther "snappy: corrupt input")
  | n :: rest =>
      if bool_decide (length rest = N.to_nat (Byte.to_N n)) then inr rest
      else inl (ErrOther "snappy: corrupt input")
  end.

(** Handshake payloads: node id, a NUL byte, client version. *)
Definition marshal_hello (m : HelloMsg) : list byte :=
  list_byte_of_string (NodeId m) ++ [Byte.x00]
    ++ list_byte_of_string (HelloClientVersion m).

Fixpoint after_nul (l : list byte) : option (list byte) :=
  match l with
  | [] => None
  | b :: l => if Byte.eqb b Byte.x00 then Some l else after_nul l
  end.

Definition unmarshal_hello (data : list byte) : error + HelloMsg :=
  match after_nul data with
  | None => inl (ErrOther "proto: unexpected EOF")
  | Some v => inr (mkHello (string_of_list_byte (until_nul data)) (string_of_list_byte v))
  end.

Definition marshal (pb : ProtoMessage) : error + list byte :=
  match pb with
  | PbHello m => inr (marshal_hello m)
  | PbOK m => inr (marshal_hello m)
  | PbPeers peers => inr (map (fun _ => Byte.x01) peers)
  end.

Definition header_length_pos : (0 < header_length)%nat := Nat.lt_0_succ 14.

#[local] Instance package : Package := {|
  peer_String p := p;
  peer_Pretty p := p;
  node_id := "local";
  node_ChainID := 1;
  host_NewStream _ _ := inr (fresh_conn, "/ip4/127.0.0.1/tcp/8680"%string);
  routeTable_GetRandomPeers _ := [];
  NebMessageHeaderLength := header_length;
  NebMessageHeaderLength_pos := header_length_pos;
  DefaultReserved := [Byte.x00];
  NewNebMessage _ reserved _ name data := new_message reserved name data;
  ParseNebMessage := parse_header;
  ParseMessageData := parse_data;
  snappy_Decode := decode;
  proto_Marshal := marshal;
  HelloMessageFromProto := unmarshal_hello;
  OKMessageFromProto := unmarshal_hello;
  proto_Unmarshal_Peers data := inr (map (fun _ => mkPeerInfo "" []) data);
  crc32_ChecksumIEEE data := Z.of_nat (length data)
|}.

(** An accepted inbound stream from peer ["remote"], and a stream created
    from a peer id, not connected yet. *)
Definition inbound : Stream :=
  newStreamInstance "remote" (Some "/ip4/10.0.0.2/tcp/8680"%string) (Some fresh_conn) 0.

Definition outbound : Stream := newStreamInstance "remote" None None 0.


(** An accepted stream whose peer went away. *)
Definition inbound_broken : Stream :=
  newStreamInstance "remote" (Some "/ip4/10.0.0.2/tcp/8680"%string) (Some broken_conn) 0.

(** A frame on the wire, and the message the read loop parses from it. *)
Definition frame (reserved0 : byte) (name : string) (data : list byte) : list byte :=
  [Byte.x01; reserved0] ++ pad_name name ++ [byte_of_nat (length data)] ++ data.

Definition received (reserved0 : byte) (name : string) (data : list byte) : NebMessage :=
  mkNebMessage name 1 [reserved0] (length data) data (frame reserved0 name data).

(** The message while only its header has been parsed. *)
Definition header_of (reserved0 : byte) (name : string) (data : list byte) : NebMessage :=
  mkNebMessage name 1 [reserved0] (length data) []
    (take header_length (frame reserved0 name data)).

Definition hello_payload : list byte := marshal_hello (mkHello "remote" ClientVersion).

Definition valid_hello : NebMessage := received Byte.x00 HELLO hello_payload.
Definition valid_ok : NebMessage := received Byte.x00 OK hello_payload.

(** An application message, and the same with the compression bit set
    although its (empty) payload is not a snappy block. *)
Definition newblock : NebMessage := received Byte.x00 "newblock" [Byte.x2a].


(** A handshaken stream whose three queues are full. *)
Definition congested : Stream :=
  set_highPriorityMessageChan (repeat newblock cap_priorityMessageChan)
    (set_normalPriorityMessageChan (repeat newblock cap_priorityMessageChan)
       (set_lowPriorityMessageChan (repeat newblock cap_priorityMessageChan)
          (set_status streamStatusHandshakeSucceed inbound))).

End Sample.

(** ** Notions used in the statements *)

(** Running calls of [close] one after the other, each from the stream the
    previous one left (finished, or parked with the mutex held). *)
Fixpoint closes {Tr : Transport} (reasons : list error) (s : Stream) : Stream :=
  match reasons with
  | [] => s
  | reason :: reasons => closes reasons (after (close reason s))
  end.

Definition occurrences (e : Event) (l : list Event) : nat :=
  count_occ Event_eq_dec l e.

(** The stream after the teardown of [close] went through. *)
Definition torn_down {Tr : Transport} (s : Stream) : Stream :=
  let s := set_status streamStatusClosed s in
  let s := set_trace (trace s ++ [RemoveStream; RemovePeerStream; QuitWriteSignal]) s in
  let s := set_quitWriteCh (quitWriteCh s ++ [true]) s in
  match stream s with
  | Some c => set_stream (Some (conn_Close c)) (set_trace (trace s ++ [TransportClose]) s)
  | None => s
  end.

(** The write deadline in the words of the spec: [max(1, ceil(len/5120))]
    seconds. *)
Definition spec_write_seconds (len : Z) : Z := Z.max 1 ((len + 5119) / 5120).

(** The non-blocking signal on the notification channel that ends
    [SendMessage]: dropped when the channel is full. *)
Definition notified {Tr : Transport} (s : Stream) : Stream :=
  if bool_decide (length (messageNotifChan s) < cap_messageNotifChan)%nat
  then set_messageNotifChan (messageNotifChan s ++ [1]) s
  else s.

(** The payloads written on the transport, in order. *)
Definition writes (l : list Event) : list (list byte) :=
  omap (fun e => match e with TransportWrite d => Some d | _ => None end) l.

(** The three priority queues, and what a strict-priority pop does to them. *)
Definition queues {Tr : Transport} (s : Stream)
    : list NebMessage * list NebMessage * list NebMessage :=
  (highPriorityMessageChan s, normalPriorityMessageChan s, lowPriorityMessageChan s).

Definition queued {Tr : Transport} (s : Stream) : list NebMessage :=
  highPriorityMessageChan s ++ normalPriorityMessageChan s ++ lowPriorityMessageChan s.


(** What [close] and [Write] leave alone. *)
Definition same_queues {Tr : Transport} (s s' : Stream) : Prop :=
  queues s' = queues s /\ messageNotifChan s' = messageNotifChan s.

(** The queues as one list, in the order they are served. *)
Definition flat (q : list NebMessage * list NebMessage * list NebMessage)
    : list NebMessage :=
  let '(h, n, l) := q in h ++ n ++ l.

(** The stream after [AddPeerStream] and [finishHandshake] went through. *)
Definition handshaken {Tr : Transport} (s : Stream) : Stream :=
  set_trace (trace s ++ [AddPeerStream; HandshakeSucceedSignal])
    (set_handshakeSucceedCh (handshakeSucceedCh s ++ [true])
       (set_status streamStatusHandshakeSucceed s)).

(** [returns P r]: whenever the call [r] finishes, at once or after having
    parked and been woken up any number of times, its value and the stream
    it leaves satisfy [P]. *)
Inductive returns {Tr : Transport} {A} (P : A -> Stream -> Prop) : Res A -> Prop :=
| returns_done a s : P a s -> returns P (Done a s)
| returns_blocked w s k : (forall s1, returns P (k s1)) -> returns P (Blocked w s k).

(** A frame whose header is parsed already counts for one more pass. *)
Definition pending_weight (message : option NebMessage) : nat :=
  match message with Some _ => 1 | None => 0 end.

(** [close] after it took the mutex, and after it sent the quit signal. *)
Definition close_tail {Tr : Transport} : M unit :=
  let* c := gets stream in
  let* _ := match c with
            | Some c =>
                let* _ := emit TransportClose in
                modify (set_stream (Some (conn_Close c)))
            | None => ret tt
            end in
  Unlock.

Definition close_locked {Tr : Transport} : M unit :=
  let* st := gets status in
  if bool_decide (st = streamStatusClosed) then Unlock
  else
    let* _ := modify (set_status streamStatusClosed) in
    let* _ := emit RemoveStream in
    let* _ := emit RemovePeerStream in
    let* _ := send_quitWriteCh true in
    close_tail.

Definition quit_sent {Tr : Transport} (s : Stream) : Stream :=
  set_trace (trace s ++ [QuitWriteSignal])
    (set_quitWriteCh (quitWriteCh s ++ [true]) s).

(** Goroutines calling [close] concurrently: the shared stream, and the
    goroutines parked inside [close], each with what it waits for and how
    it goes on once woken up. *)
Record Pool {Tr : Transport} := mkPool {
  shared : Stream;
  parked : list (Wait * (Stream -> Res unit))
}.

Arguments mkPool {Tr} shared parked.

(** What can happen next: a goroutine calls [close]; the scheduler wakes
    up the [i]-th parked goroutine (it goes on only if what it waits for
    is ready); the write loop receives from the quit channel. *)
Inductive PoolStep :=
| CallClose (reason : error)
| WakeUp (i : nat)
| ReceiveQuit.

Definition settle {Tr : Transport} (r : Res unit)
    (others : list (Wait * (Stream -> Res unit))) : Pool :=
  match r with
  | Done _ s => mkPool s others
  | Blocked w s k => mkPool s (others ++ [(w, k)])
  end.

Definition pool_step {Tr : Transport} (P : Pool) (a : PoolStep) : Pool :=
  match a with
  | CallClose reason => settle (close reason (shared P)) (parked P)
  | WakeUp i =>
      match parked P !! i with
      | Some (w, k) =>
          if ready w (shared P)
          then settle (k (shared P)) (delete i (parked P))
          else P
      | None => P
      end
  | ReceiveQuit =>
      mkPool (set_quitWriteCh (tail (quitWriteCh (shared P))) (shared P)) (parked P)
  end.

Definition pool_run {Tr : Transport} (steps : list PoolStep) (P : Pool) : Pool :=
  fold_left pool_step steps P.

(** The two ways a goroutine is parked in [close]. *)
Definition lock_waiter {Tr : Transport} (g : Wait * (Stream -> Res unit)) : Prop :=
  fst g = WaitLock /\ forall s, snd g s = close_locked (set_syncMutex true s).

Definition quit_waiter {Tr : Transport} (g : Wait * (Stream -> Res unit)) : Prop :=
  fst g = WaitSendQuitWrite /\ forall s, snd g s = close_tail (quit_sent s).

(** The four situations of a pool that started from a stream whose trace
    was [base]: the mutex was held from the start; nothing happened yet;
    one goroutine is parked at the quit send, holding the mutex; the
    teardown is over. *)
Definition pool_inv {Tr : Transport} (base : list Event) (P : Pool) : Prop :=
  let s := shared P in
  (syncMutex s = true /\ trace s = base /\ Forall lock_waiter (parked P)) \/
  (syncMutex s = false /\ status s <> streamStatusClosed /\ trace s = base /\
   parked P = []) \/
  (syncMutex s = true /\ status s = streamStatusClosed /\
   trace s = base ++ [RemoveStream; RemovePeerStream] /\
   exists l1 g l2, parked P = l1 ++ g :: l2 /\ quit_waiter g /\
                   Forall lock_waiter l1 /\ Forall lock_waiter l2) \/
  (syncMutex s = false /\ status s = streamStatusClosed /\
   (forall e, (occurrences e (trace s) <= occurrences e base + 1)%nat) /\
   Forall lock_waiter (parked P)).

(** [respects R s r]: every uninterrupted stretch of the call [r], the
    first one from [s] and each later one from the stream the goroutine is
    woken up on, ends in a stream related by [R] to the one it started
    from. *)
Fixpoint respects {Tr : Transport} {A} (R : Stream -> Stream -> Prop)
    (s : Stream) (r : Res A) : Prop :=
  match r with
  | Done _ s' => R s s'
  | Blocked _ s' k => R s s' /\ forall s1, respects R s1 (k s1)
  end.

(** The payload [handleMessage] hands to the handlers: the data of the
    message, decompressed when the compression bit is set and the message is
    not a HELLO. *)
Definition received_payload {Tr : Transport} {Pk : Package} (message : NebMessage)
    : error + list byte :=
  if negb (bool_decide (MessageName message = HELLO))
     && bool_decide (compressFlag_of message > 0)
  then snappy_Decode (Data message)
  else inr (Data message).

(** Relations between the stream before and after an operation. *)
Definition never_back_to_init {Tr : Transport} (s s' : Stream) : Prop :=
  status s <> streamStatusInit -> status s' <> streamStatusInit.

Definition stays_attached {Tr : Transport} (s s' : Stream) : Prop :=
  stream s <> None -> stream s' <> None.

Definition stays_closed {Tr : Transport} (s s' : Stream) : Prop :=
  status s = streamStatusClosed -> status s' = streamStatusClosed.

Definition same_counts {Tr : Transport} (s s' : Stream) : Prop :=
  msgCount s' = msgCount s /\ compressFlag s' = compressFlag s.



(** * Properties *)

Section CloseFacts.
Context {Tr : Transport}.

Lemma Stream_ext (s s' : Stream) :
  syncMutex s = syncMutex s' -> pid s = pid s' -> addr s = addr s' ->
  stream s = stream s' -> handshakeSucceedCh s = handshakeSucceedCh s' ->
  messageNotifChan s = messageNotifChan s' ->
  highPriorityMessageChan s = highPriorityMessageChan s' ->
  normalPriorityMessageChan s = normalPriorityMessageChan s' ->
  lowPriorityMessageChan s = lowPriorityMessageChan s' ->
  quitWriteCh s = quitWriteCh s' -> status s = status s' ->
  connectedAt s = connectedAt s' -> latestReadAt s = latestReadAt s' ->
  latestWriteAt s = latestWriteAt s' -> msgCount s = msgCount s' ->
  compressFlag s = compressFlag s' -> clock s = clock s' ->
  trace s = trace s' -> s = s'.
Proof. destruct s, s'; simpl; intros; subst; reflexivity. Qed.

Ltac run_close :=
  unfold close, Lock, Unlock, send_quitWriteCh, blocking, bind, gets, modify,
    emit, ret; simpl.

Lemma close_mutex_held reason (s : Stream) :
  syncMutex s = true -> after (close reason s) = s.
Proof. intros Hm. run_close. rewrite Hm. reflexivity. Qed.

Lemma close_already_closed reason (s : Stream) :
  syncMutex s = false -> status s = streamStatusClosed ->
  close reason s = Done tt s.
Proof.
  intros Hm Hs. run_close. rewrite Hm. simpl. rewrite Hs. simpl.
  f_equal. apply Stream_ext; simpl; auto.
Qed.

Lemma close_tears_down reason (s : Stream) :
  syncMutex s = false -> status s <> streamStatusClosed ->
  quitWriteCh s = [] ->
  close reason s = Done tt (torn_down s).
Proof.
  intros Hm Hs Hq. run_close. rewrite Hm. simpl.
  rewrite bool_decide_eq_false_2 by assumption. simpl.
  rewrite Hq. simpl. unfold torn_down. simpl.
  destruct (stream s) as [c|]; simpl; f_equal; apply Stream_ext; simpl;
    rewrite ?Hq, <- ?app_assoc; auto.
Qed.

Lemma close_parks_on_quit reason (s : Stream) :
  syncMutex s = false -> status s <> streamStatusClosed ->
  quitWriteCh s <> [] ->
  exists k, close reason s =
    Blocked WaitSendQuitWrite
      (set_trace (trace s ++ [RemoveStream; RemovePeerStream])
         (set_status streamStatusClosed (set_syncMutex true s))) k.
Proof.
  intros Hm Hs Hq. run_close. rewrite Hm. simpl.
  rewrite bool_decide_eq_false_2 by assumption. simpl.
  destruct (quitWriteCh s) as [|q qs] eqn:E; [congruence|]. simpl.
  rewrite ?bool_decide_eq_false_2 by (unfold cap_quitWriteCh; simpl; lia).
  eexists. f_equal.
  apply Stream_ext; simpl; rewrite <- ?app_assoc; reflexivity.
Qed.

Lemma torn_down_status (s : Stream) : status (torn_down s) = streamStatusClosed.
Proof. unfold torn_down. simpl. destruct (stream s); reflexivity. Qed.

Lemma torn_down_syncMutex (s : Stream) : syncMutex (torn_down s) = syncMutex s.
Proof. unfold torn_down. simpl. destruct (stream s); reflexivity. Qed.

Lemma torn_down_trace (s : Stream) :
  trace (torn_down s) =
    trace s ++ [RemoveStream; RemovePeerStream; QuitWriteSignal]
      ++ match stream s with Some _ => [TransportClose] | None => [] end.
Proof.
  unfold torn_down. simpl. destruct (stream s); simpl.
  - rewrite <- app_assoc. reflexivity.
  - reflexivity.
Qed.

Lemma closes_stuck reasons (s : Stream) :
  syncMutex s = true \/ status s = streamStatusClosed -> closes reasons s = s.
Proof.
  induction reasons as [|r rs IH]; intros H; [reflexivity|]. simpl.
  destruct (syncMutex s) eqn:Hm.
  - rewrite close_mutex_held by assumption. apply IH. auto.
  - destruct H as [H|H]; [discriminate|].
    rewrite close_already_closed by assumption. simpl. apply IH. auto.
Qed.

End CloseFacts.

Section ClosePool.
Context {Tr : Transport}.

Lemma close_locked_eq reason (s : Stream) :
  close reason s = bind_res (Lock s) (fun _ => close_locked).
Proof. reflexivity. Qed.

Lemma close_parks_on_lock reason (s : Stream) :
  syncMutex s = true ->
  exists k, close reason s = Blocked WaitLock s k /\ lock_waiter (WaitLock, k).
Proof.
  intros Hm. rewrite close_locked_eq. unfold Lock, blocking. simpl. rewrite Hm. simpl.
  eexists. split; [reflexivity|]. split; [reflexivity|]. intros s1. reflexivity.
Qed.

Lemma close_locked_closed (s : Stream) :
  status s = streamStatusClosed ->
  exists s', close_locked (set_syncMutex true s) = Done tt s' /\
    syncMutex s' = false /\ status s' = streamStatusClosed /\ trace s' = trace s.
Proof.
  intros Hs. unfold close_locked, bind, gets, Unlock, modify. simpl. rewrite Hs. simpl.
  eexists. split; [reflexivity|]. simpl. auto.
Qed.

Lemma close_tail_done (s : Stream) :
  exists s', close_tail s = Done tt s' /\
    syncMutex s' = false /\ status s' = status s /\
    trace s' = trace s ++ match stream s with Some _ => [TransportClose] | None => [] end.
Proof.
  unfold close_tail, bind, gets, Unlock, modify, emit, ret. simpl.
  destruct (stream s); simpl; eexists; (split; [reflexivity|]); simpl;
    rewrite ?app_nil_r; auto.
Qed.

Lemma close_parks_quit_waiter reason (s : Stream) :
  syncMutex s = false -> status s <> streamStatusClosed -> quitWriteCh s <> [] ->
  exists s' k, close reason s = Blocked WaitSendQuitWrite s' k /\
    quit_waiter (WaitSendQuitWrite, k) /\
    syncMutex s' = true /\ status s' = streamStatusClosed /\
    trace s' = trace s ++ [RemoveStream; RemovePeerStream].
Proof.
  intros Hm Hs Hq. rewrite close_locked_eq. unfold Lock, blocking. simpl.
  rewrite Hm. simpl.
  unfold close_locked, bind, gets, modify, emit, send_quitWriteCh, blocking. simpl.
  rewrite bool_decide_eq_false_2 by assumption. simpl.
  destruct (quitWriteCh s) as [|q qs] eqn:E; [congruence|]. simpl.
  eexists. eexists. split; [reflexivity|]. simpl.
  split; [|rewrite <- app_assoc; auto].
  split; [reflexivity|]. intros s1. reflexivity.
Qed.

Lemma occurrences_app e (l1 l2 : list Event) :
  occurrences e (l1 ++ l2) = (occurrences e l1 + occurrences e l2)%nat.
Proof. apply count_occ_app. Qed.

Lemma teardown_suffix_once e (attached : bool) :
  (occurrences e ([RemoveStream; RemovePeerStream; QuitWriteSignal]
      ++ (if attached then [TransportClose] else [])) <= 1)%nat.
Proof.
  unfold occurrences.
  destruct attached, e; simpl; repeat case_match; try congruence; lia.
Qed.

Lemma teardown_prefix_once e :
  (occurrences e [RemoveStream; RemovePeerStream] <= 1)%nat.
Proof.
  unfold occurrences. destruct e; simpl; repeat case_match; try congruence; lia.
Qed.

Lemma pool_inv_bound base (P : Pool) e :
  pool_inv base P ->
  (occurrences e (trace (shared P)) <= occurrences e base + 1)%nat.
Proof.
  intros [(_ & Ht & _)|[(_ & _ & Ht & _)|[(_ & _ & Ht & _)|(_ & _ & Ht & _)]]].
  - rewrite Ht. lia.
  - rewrite Ht. lia.
  - rewrite Ht, occurrences_app. pose proof (teardown_prefix_once e). lia.
  - apply Ht.
Qed.

Lemma pool_inv_start (s : Stream) : pool_inv (trace s) (mkPool s []).
Proof.
  unfold pool_inv. simpl.
  destruct (syncMutex s) eqn:Hm; [left; auto|].
  destruct (decide (status s = streamStatusClosed)) as [Hs|Hs].
  - right. right. right.
    split; [reflexivity|]. split; [assumption|]. split; [intros e; lia|constructor].
  - right. left. auto.
Qed.

Ltac in_case_A := unfold pool_inv; simpl; left.
Ltac in_case_B := unfold pool_inv; simpl; right; left.
Ltac in_case_C := unfold pool_inv; simpl; right; right; left.
Ltac in_case_D := unfold pool_inv; simpl; right; right; right.

Lemma pool_step_inv base (P : Pool) a :
  pool_inv base P -> pool_inv base (pool_step P a).
Proof.
  destruct P as [s gs].
  intros [(Hm & Ht & Hg)|[(Hm & Hs & Ht & Hg)|[(Hm & Hs & Ht & l1 & g & l2 & Hg & Hq & H1 & H2)
         |(Hm & Hs & Ht & Hg)]]]; simpl in *.
  - (* the mutex was held from the start *)
    destruct a as [reason|i|]; simpl.
    + destruct (close_parks_on_lock reason s Hm) as (k & -> & Hk). simpl.
      in_case_A. repeat split; auto. apply Forall_app. split; [assumption|].
      constructor; [assumption|constructor].
    + destruct (gs !! i) as [[w k]|] eqn:Hi; [|in_case_A; auto].
      destruct (proj1 (Forall_lookup _ _) Hg i _ Hi) as [Hw _]. simpl in Hw. subst w.
      simpl. rewrite Hm. simpl. in_case_A. auto.
    + in_case_A. auto.
  - (* nothing happened yet *)
    subst gs. destruct a as [reason|i|]; simpl.
    + destruct (quitWriteCh s) as [|q qs] eqn:Hq.
      * rewrite close_tears_down by assumption. simpl.
        in_case_D.
        rewrite torn_down_syncMutex, torn_down_status, torn_down_trace.
        split; [assumption|]. split; [reflexivity|]. split; [|constructor].
        intros e. rewrite Ht, occurrences_app.
        pose proof (teardown_suffix_once e (IsConnected s)) as Hc.
        unfold IsConnected in Hc. destruct (stream s); simpl in *; lia.
      * destruct (close_parks_quit_waiter reason s Hm Hs) as (s' & k & -> & Hk & Hm' & Hs' & Ht');
          [congruence|]. simpl.
        in_case_C. rewrite Ht' , Ht.
        split; [assumption|]. split; [assumption|]. split; [reflexivity|].
        exists [], (WaitSendQuitWrite, k), [].
        split; [reflexivity|]. split; [exact Hk|]. split; constructor.
    + in_case_B. auto.
    + in_case_B. auto.
  - (* one goroutine is parked at the quit send *)
    subst gs. destruct a as [reason|i|]; simpl.
    + destruct (close_parks_on_lock reason s Hm) as (k & -> & Hk). simpl.
      in_case_C.
      split; [assumption|]. split; [assumption|]. split; [assumption|].
      exists l1, g, (l2 ++ [(WaitLock, k)]).
      rewrite <- app_assoc. simpl.
      split; [reflexivity|]. split; [assumption|]. split; [assumption|].
      apply Forall_app. split; [assumption|]. constructor; [assumption|constructor].
    + destruct (decide (i = length l1)) as [->|Hi].
      * rewrite list_lookup_middle by reflexivity.
        destruct g as [w k]. destruct Hq as [Hw Hk]. simpl in Hw, Hk. subst w.
        destruct (ready WaitSendQuitWrite s) eqn:Hr.
        -- rewrite Hk, delete_middle.
           destruct (close_tail_done (quit_sent s)) as (s' & -> & Hm' & Hs' & Ht').
           simpl in *. in_case_D.
           split; [assumption|]. split; [congruence|]. split.
           ++ intros e. rewrite Ht', Ht, <- !app_assoc. simpl. rewrite occurrences_app.
              pose proof (teardown_suffix_once e (IsConnected s)) as Hc.
              unfold IsConnected in Hc. destruct (stream s); simpl in *; lia.
           ++ apply Forall_app. auto.
        -- in_case_C.
           split; [assumption|]. split; [assumption|]. split; [assumption|].
           exists l1, (WaitSendQuitWrite, k), l2.
           split; [reflexivity|]. split; [split; [reflexivity|exact Hk]|].
           split; assumption.
      * assert (Hkeep : pool_inv base (mkPool s (l1 ++ g :: l2))).
        { in_case_C.
          split; [assumption|]. split; [assumption|]. split; [assumption|].
          exists l1, g, l2. auto. }
        destruct ((l1 ++ g :: l2) !! i) as [[w k]|] eqn:Hl; [|exact Hkeep].
        assert (Hlw : lock_waiter (w, k)).
        { destruct (decide (i < length l1)%nat) as [Hlt|Hge].
          - rewrite lookup_app_l in Hl by assumption.
            apply (proj1 (Forall_lookup _ _) H1 i _ Hl).
          - rewrite lookup_app_r in Hl by lia.
            destruct (i - length l1)%nat as [|j] eqn:Hj; [lia|]. simpl in Hl.
            apply (proj1 (Forall_lookup _ _) H2 j _ Hl). }
        destruct Hlw as [Hw _]. simpl in Hw. subst w. simpl. rewrite Hm. simpl.
        exact Hkeep.
    + in_case_C.
      split; [assumption|]. split; [assumption|]. split; [assumption|].
      exists l1, g, l2. auto.
  - (* the teardown is over *)
    destruct a as [reason|i|]; simpl.
    + rewrite close_already_closed by assumption. simpl.
      in_case_D. auto.
    + destruct (gs !! i) as [[w k]|] eqn:Hi; [|in_case_D; auto].
      destruct (proj1 (Forall_lookup _ _) Hg i _ Hi) as [Hw Hk]. simpl in Hw, Hk. subst w.
      simpl. rewrite Hm. simpl. rewrite Hk.
      destruct (close_locked_closed s Hs) as (s' & -> & Hm' & Hs' & Ht'). simpl.
      in_case_D. rewrite Ht'.
      split; [assumption|]. split; [assumption|]. split; [assumption|].
      apply Forall_delete. assumption.
    + in_case_D. auto.
Qed.

Lemma pool_run_inv base steps (P : Pool) :
  pool_inv base P -> pool_inv base (pool_run steps P).
Proof.
  revert P. induction steps as [|a steps IH]; intros P H; [exact H|].
  simpl. apply IH. apply pool_step_inv. assumption.
Qed.

End ClosePool.

Section CloseOnce.
Context {Tr : Transport}.

(** C3. [close] is idempotent: once a call of [close] has returned, any
    further call returns at once with the stream unchanged (so it emits no
    RemoveStream, RemovePeerStream, quit signal or transport close); over
    any sequence of calls of [close], from any stream, each teardown action
    is performed at most once; and so it is when the calls run
    concurrently, in any interleaving of new calls, of wake-ups of the
    goroutines parked at the mutex or at the quit send, and of receptions
    on the quit channel. *)
Theorem close_idempotent :
  (forall (s s' : Stream) reason,
      close reason s = Done tt s' ->
      forall reason', close reason' s' = Done tt s') /\
  (forall reasons (s : Stream) e,
      (occurrences e (trace (closes reasons s))
         <= occurrences e (trace s) + 1)%nat) /\
  (forall steps (s : Stream) e,
      (occurrences e (trace (shared (pool_run steps (mkPool s []))))
         <= occurrences e (trace s) + 1)%nat).
Proof.
  split; [|split].
  3: { intros steps s e. apply pool_inv_bound, pool_run_inv, pool_inv_start. }
  - intros s s' reason H reason'.
    destruct (syncMutex s) eqn:Hm.
    { pose proof (close_mutex_held reason s Hm) as Ha.
      rewrite H in Ha. simpl in Ha. subst s'.
      revert H. unfold close, Lock, blocking, bind. simpl. rewrite Hm.
      simpl. discriminate. }
    destruct (decide (status s = streamStatusClosed)) as [Hs|Hs].
    { rewrite close_already_closed in H by assumption.
      injection H as <-. apply close_already_closed; assumption. }
    destruct (quitWriteCh s) as [|q qs] eqn:Hq.
    + rewrite close_tears_down in H by assumption.
      injection H as <-. apply close_already_closed.
      * rewrite torn_down_syncMutex. assumption.
      * apply torn_down_status.
    + destruct (close_parks_on_quit reason s Hm Hs) as [k Hk]; [congruence|].
      rewrite Hk in H. discriminate.
  - intros reasons s e.
    destruct reasons as [|r rs]; [simpl; lia|]. simpl.
    destruct (syncMutex s) eqn:Hm.
    { rewrite close_mutex_held by assumption.
      rewrite closes_stuck by auto. lia. }
    destruct (decide (status s = streamStatusClosed)) as [Hs|Hs].
    { rewrite close_already_closed by assumption. simpl.
      rewrite closes_stuck by auto. lia. }
    destruct (quitWriteCh s) as [|q qs] eqn:Hq.
    + rewrite close_tears_down by assumption. simpl.
      rewrite closes_stuck by (right; apply torn_down_status).
      rewrite torn_down_trace, occurrences_app.
      pose proof (teardown_suffix_once e (IsConnected s)) as Hc. unfold IsConnected in Hc.
      destruct (stream s); simpl in Hc |- *; lia.
    + destruct (close_parks_on_quit r s Hm Hs) as [k Hk]; [congruence|].
      rewrite Hk. simpl.
      rewrite closes_stuck by (left; reflexivity). simpl.
      rewrite occurrences_app.
      pose proof (teardown_prefix_once e). lia.
Qed.

End CloseOnce.

Section WriteFacts.
Context {Tr : Transport}.

Lemma close_trace_extends reason (s : Stream) :
  exists rest, trace (after (close reason s)) = trace s ++ rest.
Proof.
  destruct (syncMutex s) eqn:Hm.
  { rewrite close_mutex_held by assumption. exists []. symmetry. apply app_nil_r. }
  destruct (decide (status s = streamStatusClosed)) as [Hs|Hs].
  { rewrite close_already_closed by assumption. exists []. symmetry. apply app_nil_r. }
  destruct (quitWriteCh s) as [|q qs] eqn:Hq.
  - rewrite close_tears_down by assumption. simpl. rewrite torn_down_trace. eauto.
  - destruct (close_parks_on_quit reason s Hm Hs) as [k Hk]; [congruence|].
    rewrite Hk. simpl. eauto.
Qed.

Lemma quot_5120 n : 0 <= n -> n ÷ 1024 ÷ 5 = n / 5120.
Proof.
  intros H. rewrite (Z.quot_div_nonneg n 1024) by lia.
  rewrite Z.quot_div_nonneg by (try apply Z.div_pos; lia).
  rewrite Z.div_div by lia. reflexivity.
Qed.

Lemma writeTimeout_seconds (data : list byte) :
  (Z.of_nat (length data) ÷ 1024 ÷ 5 + 1) * Second < 2 ^ 63 ->
  writeTimeout data = (Z.of_nat (length data) / 5120 + 1) * Second.
Proof.
  intros Hb. unfold writeTimeout.
  rewrite quot_5120 in * by lia.
  assert (0 <= Z.of_nat (length data) / 5120) by (apply Z.div_pos; lia).
  unfold wrap64, Second in *.
  rewrite Z.mod_small by lia. lia.
Qed.

Lemma spec_write_seconds_le (len : Z) :
  0 <= len -> spec_write_seconds len <= len / 5120 + 1.
Proof.
  intros H. unfold spec_write_seconds.
  assert ((len + 5119) / 5120 <= len / 5120 + 1).
  { replace (len / 5120 + 1) with ((len + 1 * 5120) / 5120)
      by (rewrite Z.div_add by lia; reflexivity).
    apply Z.div_le_mono; lia. }
  assert (0 <= len / 5120) by (apply Z.div_pos; lia).
  lia.
Qed.

Lemma spec_write_seconds_eq (len : Z) :
  0 <= len -> len mod 5120 <> 0 \/ len = 0 ->
  len / 5120 + 1 = spec_write_seconds len.
Proof.
  intros H Hm. unfold spec_write_seconds.
  destruct Hm as [Hm| ->]; [|reflexivity].
  pose proof (Z.div_mod len 5120 ltac:(lia)) as Hd.
  pose proof (Z.mod_pos_bound len 5120 ltac:(lia)) as Hr.
  assert (0 <= len / 5120) by (apply Z.div_pos; lia).
  assert ((len + 5119) / 5120 = len / 5120 + 1) as ->.
  { symmetry. apply (Z.div_unique _ _ _ (len mod 5120 - 1)); lia. }
  lia.
Qed.

Lemma spec_write_seconds_multiple (len : Z) :
  0 < len -> len mod 5120 = 0 ->
  len / 5120 + 1 = spec_write_seconds len + 1.
Proof.
  intros H Hm. unfold spec_write_seconds.
  pose proof (Z.div_mod len 5120 ltac:(lia)) as Hd.
  assert ((len + 5119) / 5120 = len / 5120) as ->.
  { symmetry. apply (Z.div_unique _ _ _ 5119); lia. }
  assert (0 < len / 5120) by lia.
  lia.
Qed.

(** C8, amended.  For a payload [data] written by [Write] on a connected
    stream, the deadline set on the transport is [len/5120 + 1] seconds
    (integer division) after the time of the write.  This is never less
    than the spec's [max(1, ceil(len/5120))] seconds; it is equal to it
    when [len] is zero or not a multiple of 5120, and one second more when
    [len] is a positive multiple of 5120. *)
Theorem Write_deadline (s : Stream) (c : Conn) (data : list byte) :
  let len := Z.of_nat (length data) in
  stream s = Some c ->
  (len ÷ 1024 ÷ 5 + 1) * Second < 2 ^ 63 ->
  (exists rest,
      trace (after (Write data s)) =
        trace s ++ TransportSetWriteDeadline (clock s + (len / 5120 + 1) * Second) :: rest) /\
  spec_write_seconds len <= len / 5120 + 1 /\
  (len mod 5120 <> 0 \/ len = 0 -> len / 5120 + 1 = spec_write_seconds len) /\
  (0 < len -> len mod 5120 = 0 -> len / 5120 + 1 = spec_write_seconds len + 1).
Proof.
  intros len Hc Hb. subst len.
  split; [|split; [apply spec_write_seconds_le; lia|
           split; [apply spec_write_seconds_eq; lia|apply spec_write_seconds_multiple]]].
  unfold Write, bind, gets. simpl. rewrite Hc. simpl.
  rewrite writeTimeout_seconds by assumption.
  destruct (SetWriteDeadline c _) as [[err|] c1]; simpl.
  - eexists. reflexivity.
  - destruct (conn_Write c1 data) as [[n [err|]] c2]; simpl.
    + match goal with |- context [close err ?s0] =>
        destruct (close_trace_extends err s0) as [rest Hrest];
        destruct (close err s0) as [[] s1|w s1 k]; simpl in *;
        rewrite Hrest; rewrite <- !app_assoc; simpl; eexists; reflexivity
      end.
    + rewrite <- app_assoc. simpl. eexists. reflexivity.
Qed.

End WriteFacts.

Section WriteNotConnected.
Context {Tr : Transport}.

Lemma Write_detached (s : Stream) (data : list byte) :
  stream s = None ->
  Write data s =
    bind (close ErrStreamIsNotConnected)
      (fun _ => ret (Some ErrStreamIsNotConnected)) s.
Proof. intros Hc. unfold Write, bind at 1, gets. simpl. rewrite Hc. reflexivity. Qed.

Lemma torn_down_detached (s : Stream) :
  stream s = None ->
  stream (torn_down s) = None /\
  quitWriteCh (torn_down s) = quitWriteCh s ++ [true] /\
  trace (torn_down s) = trace s ++ [RemoveStream; RemovePeerStream; QuitWriteSignal].
Proof.
  intros Hc. unfold torn_down. simpl. rewrite Hc. simpl. auto.
Qed.

(** C10, amended.  When [Write] is called on a stream whose transport is
    not attached (and no [close] is in progress), it returns
    [ErrStreamIsNotConnected] and leaves the stream closed.  If the stream
    was not closed yet, this very call closes it: the status becomes CLOSED,
    RemoveStream and RemovePeerStream are called, and the quit signal is
    sent (no transport is closed, there is none).  As long as no transport is
    attached, any later [Write] on the stream fails in the same way and
    changes nothing.  (Nothing more lasting holds: the read loop can still
    attach a transport to the closed stream.) *)
Theorem Write_not_connected_closes (s : Stream) (data : list byte) :
  stream s = None ->
  syncMutex s = false ->
  (status s = streamStatusClosed ->
     Write data s = Done (Some ErrStreamIsNotConnected) s) /\
  (status s <> streamStatusClosed -> quitWriteCh s = [] ->
     exists s',
       Write data s = Done (Some ErrStreamIsNotConnected) s' /\
       status s' = streamStatusClosed /\
       trace s' = trace s ++ [RemoveStream; RemovePeerStream; QuitWriteSignal] /\
       quitWriteCh s' = [true] /\
       stream s' = None /\
       forall data', Write data' s' = Done (Some ErrStreamIsNotConnected) s').
Proof.
  intros Hc Hm. split.
  - intros Hs. rewrite Write_detached by assumption.
    unfold bind. rewrite close_already_closed by assumption. reflexivity.
  - intros Hs Hq. exists (torn_down s).
    destruct (torn_down_detached s Hc) as (Hc' & Hq' & Ht').
    rewrite Hq in Hq'. simpl in Hq'.
    repeat split; try assumption.
    + rewrite Write_detached by assumption.
      unfold bind. rewrite close_tears_down by assumption. reflexivity.
    + apply torn_down_status.
    + intros data'. rewrite Write_detached by assumption.
      unfold bind. rewrite close_already_closed; [reflexivity| |apply torn_down_status].
      rewrite torn_down_syncMutex. assumption.
Qed.

End WriteNotConnected.

Section SendFacts.
Context {Tr : Transport} {Pk : Package}.

Lemma notify_done (s : Stream) :
  bind (trysend_messageNotifChan 1) (fun _ => ret (@None error)) s = Done None (notified s).
Proof.
  unfold bind, trysend_messageNotifChan, notified, ret.
  destruct (bool_decide _); reflexivity.
Qed.

Lemma SendMessage_framing_error (s : Stream) name data priority err :
  NewNebMessage s DefaultReserved 0 name data = inl err ->
  SendMessage name data priority s = Done (Some err) s.
Proof. intros H. unfold SendMessage, bind, gets. simpl. rewrite H. reflexivity. Qed.

(** C9. [SendMessage].  When the message cannot be framed it returns the
    framing error at once.  Otherwise, with priority NORMAL (or LOW, or any
    other value than HIGH and NORMAL) it never parks: it appends the
    message to the normal (low) queue when there is room and then signals
    the notification channel, and when that queue is full it returns nil
    with the stream unchanged, the message dropped.  With priority HIGH it
    appends to the high queue when there is room; when the high queue is
    full it parks at the send, the stream unchanged, and once woken with a
    free slot it appends the message and finishes with nil. *)
Theorem SendMessage_priorities (s : Stream) name data priority :
  (forall err,
     NewNebMessage s DefaultReserved 0 name data = inl err ->
     SendMessage name data priority s = Done (Some err) s) /\
  (forall message,
  NewNebMessage s DefaultReserved 0 name data = inr message ->
  (priority = MessagePriorityHigh ->
     ((length (highPriorityMessageChan s) < cap_priorityMessageChan)%nat ->
        SendMessage name data priority s =
          Done None (notified (set_highPriorityMessageChan
                                 (highPriorityMessageChan s ++ [message]) s))) /\
     ((cap_priorityMessageChan <= length (highPriorityMessageChan s))%nat ->
        exists k,
          SendMessage name data priority s = Blocked WaitSendHighPriority s k /\
          forall s1,
            (length (highPriorityMessageChan s1) < cap_priorityMessageChan)%nat ->
            resume (SendMessage name data priority s) s1 =
              Done None (notified (set_highPriorityMessageChan
                                     (highPriorityMessageChan s1 ++ [message]) s1)))) /\
  (priority = MessagePriorityNormal ->
     ((length (normalPriorityMessageChan s) < cap_priorityMessageChan)%nat ->
        SendMessage name data priority s =
          Done None (notified (set_normalPriorityMessageChan
                                 (normalPriorityMessageChan s ++ [message]) s))) /\
     ((cap_priorityMessageChan <= length (normalPriorityMessageChan s))%nat ->
        SendMessage name data priority s = Done None s)) /\
  (priority <> MessagePriorityHigh -> priority <> MessagePriorityNormal ->
     ((length (lowPriorityMessageChan s) < cap_priorityMessageChan)%nat ->
        SendMessage name data priority s =
          Done None (notified (set_lowPriorityMessageChan
                                 (lowPriorityMessageChan s ++ [message]) s))) /\
     ((cap_priorityMessageChan <= length (lowPriorityMessageChan s))%nat ->
        SendMessage name data priority s = Done None s))).
Proof.
  split; [intros err Herr; apply SendMessage_framing_error; assumption|].
  intros message Hmsg.
  assert (Hhead : forall prio, SendMessage name data prio s =
    (if bool_decide (prio = MessagePriorityHigh) then
       bind (send_highPriorityMessageChan message)
         (fun _ => bind (trysend_messageNotifChan 1) (fun _ => ret None))
     else if bool_decide (prio = MessagePriorityNormal) then
       bind (trysend_normalPriorityMessageChan message)
         (fun sent : bool => if sent
            then bind (trysend_messageNotifChan 1) (fun _ => ret None)
            else ret None)
     else
       bind (trysend_lowPriorityMessageChan message)
         (fun sent : bool => if sent
            then bind (trysend_messageNotifChan 1) (fun _ => ret None)
            else ret None)) s).
  { intros prio. unfold SendMessage, bind at 1, gets. simpl. rewrite Hmsg.
    repeat case_bool_decide; reflexivity. }
  split; [|split].
  - intros Hp. split.
    + intros Hroom. rewrite Hhead, bool_decide_eq_true_2 by assumption.
      unfold bind at 1, send_highPriorityMessageChan, blocking. simpl.
      rewrite bool_decide_eq_true_2 by assumption. simpl. apply notify_done.
    + intros Hfull.
      assert (Hpark : SendMessage name data priority s =
        Blocked WaitSendHighPriority s
          (fun s1 => bind_res
             (Done tt (set_highPriorityMessageChan
                         (highPriorityMessageChan s1 ++ [message]) s1))
             (fun _ => bind (trysend_messageNotifChan 1) (fun _ => ret None)))).
      { rewrite Hhead, bool_decide_eq_true_2 by assumption.
        unfold bind at 1, send_highPriorityMessageChan, blocking. simpl.
        rewrite bool_decide_eq_false_2 by lia. reflexivity. }
      eexists. split; [exact Hpark|].
      intros s1 Hroom. rewrite Hpark. simpl.
      rewrite bool_decide_eq_true_2 by assumption. apply notify_done.
  - intros Hp. split.
    + intros Hroom. rewrite Hhead.
      rewrite bool_decide_eq_false_2 by (subst priority; discriminate).
      rewrite bool_decide_eq_true_2 by assumption.
      unfold bind at 1, trysend_normalPriorityMessageChan.
      rewrite bool_decide_eq_true_2 by assumption. simpl. apply notify_done.
    + intros Hfull. rewrite Hhead.
      rewrite bool_decide_eq_false_2 by (subst priority; discriminate).
      rewrite bool_decide_eq_true_2 by assumption.
      unfold bind at 1, trysend_normalPriorityMessageChan.
      rewrite bool_decide_eq_false_2 by lia. reflexivity.
  - intros Hp1 Hp2. split.
    + intros Hroom. rewrite Hhead.
      rewrite !bool_decide_eq_false_2 by assumption.
      unfold bind at 1, trysend_lowPriorityMessageChan.
      rewrite bool_decide_eq_true_2 by assumption. simpl. apply notify_done.
    + intros Hfull. rewrite Hhead.
      rewrite !bool_decide_eq_false_2 by assumption.
      unfold bind at 1, trysend_lowPriorityMessageChan.
      rewrite bool_decide_eq_false_2 by lia. reflexivity.
Qed.

End SendFacts.

Section WriteLoopFacts.
Context {Tr : Transport}.

Lemma writes_app (l1 l2 : list Event) : writes (l1 ++ l2) = writes l1 ++ writes l2.
Proof. unfold writes. apply omap_app. Qed.

Lemma close_frame reason (s : Stream) :
  same_queues s (after (close reason s)) /\
  exists new, trace (after (close reason s)) = trace s ++ new /\ writes new = [].
Proof.
  destruct (syncMutex s) eqn:Hm.
  { rewrite close_mutex_held by assumption. repeat split.
    exists []. rewrite app_nil_r. auto. }
  destruct (decide (status s = streamStatusClosed)) as [Hs|Hs].
  { rewrite close_already_closed by assumption. repeat split.
    exists []. rewrite app_nil_r. auto. }
  destruct (quitWriteCh s) as [|q qs] eqn:Hq.
  - rewrite close_tears_down by assumption. simpl. split.
    + unfold torn_down, same_queues, queues. simpl. destruct (stream s); auto.
    + rewrite torn_down_trace. eexists. split; [reflexivity|].
      destruct (stream s); reflexivity.
  - destruct (close_parks_on_quit reason s Hm Hs) as [k Hk]; [congruence|].
    rewrite Hk. simpl. split; [repeat split|].
    eexists. split; reflexivity.
Qed.

(** [Write], case by case. *)
Lemma Write_cases (data : list byte) (s : Stream) :
  Write data s =
    match stream s with
    | None =>
        bind (close ErrStreamIsNotConnected)
          (fun _ => ret (Some ErrStreamIsNotConnected)) s
    | Some c =>
        let deadline := clock s + writeTimeout data in
        let s1 c1 := set_stream (Some c1)
                       (set_trace (trace s ++ [TransportSetWriteDeadline deadline]) s) in
        let s2 c1 c2 := set_stream (Some c2)
                          (set_trace (trace (s1 c1) ++ [TransportWrite data]) (s1 c1)) in
        match SetWriteDeadline c deadline with
        | (Some err, c1) => Done (Some err) (s1 c1)
        | (None, c1) =>
            match conn_Write c1 data with
            | ((_, Some err), c2) =>
                bind (close err) (fun _ => ret (Some err)) (s2 c1 c2)
            | ((_, None), c2) =>
                Done None (set_latestWriteAt (clock s / Second) (s2 c1 c2))
            end
        end
    end.
Proof.
  unfold Write, bind at 1, gets. simpl.
  destruct (stream s) as [c|]; [|reflexivity].
  unfold bind at 1. simpl.
  destruct (SetWriteDeadline c _) as [[err|] c1]; [reflexivity|].
  destruct (conn_Write c1 data) as [[n [err|]] c2]; reflexivity.
Qed.

Lemma Write_frame (data : list byte) (s : Stream) :
  same_queues s (after (Write data s)) /\
  exists new, trace (after (Write data s)) = trace s ++ new /\
              (writes new = [] \/ writes new = [data]).
Proof.
  rewrite Write_cases.
  destruct (stream s) as [c|] eqn:Hc.
  - cbv zeta.
    destruct (SetWriteDeadline c _) as [[err|] c1].
    + simpl. split; [repeat split|]. eexists. split; [reflexivity|]. left. reflexivity.
    + destruct (conn_Write c1 data) as [[n [err|]] c2].
      * match goal with |- context [bind (close err) _ ?s0] =>
          destruct (close_frame err s0) as ((Hq & Hn) & new & Ht & Hw);
          unfold bind; destruct (close err s0) as [[] s3|w s3 k]
        end; simpl in *;
        (split; [split; assumption|]);
        rewrite Ht, <- !app_assoc; (eexists; split; [reflexivity|]);
        right; rewrite !writes_app, Hw; reflexivity.
      * simpl. split; [repeat split|]. rewrite <- app_assoc.
        eexists. split; [reflexivity|]. right. reflexivity.
  - destruct (close_frame ErrStreamIsNotConnected s) as (Hq & new & Ht & Hw).
    unfold bind.
    destruct (close ErrStreamIsNotConnected s) as [[] s1|w s1 k]; simpl in *;
      (split; [assumption|]); exists new; auto.
Qed.

(** [writeLoop_notified], case by case. *)
Lemma writeLoop_notified_cases (s : Stream) :
  writeLoop_notified s =
    let write m := bind (WriteNebMessage m) (fun _ => ret tt) in
    match highPriorityMessageChan s with
    | m :: rest => write m (set_highPriorityMessageChan rest s)
    | [] =>
        match normalPriorityMessageChan s with
        | m :: rest => write m (set_normalPriorityMessageChan rest s)
        | [] =>
            match lowPriorityMessageChan s with
            | m :: rest => write m (set_lowPriorityMessageChan rest s)
            | [] => Done tt s
            end
        end
    end.
Proof.
  unfold writeLoop_notified, bind at 1, gets. simpl.
  destruct (highPriorityMessageChan s); [|reflexivity].
  unfold bind at 1. simpl.
  destruct (normalPriorityMessageChan s); [|reflexivity].
  unfold bind at 1. simpl.
  destruct (lowPriorityMessageChan s); reflexivity.
Qed.



End WriteLoopFacts.

Section StrictPriority.
Context {Tr : Transport}.

Lemma queued_flat (s : Stream) : queued s = flat (queues s).
Proof. reflexivity. Qed.






Lemma writeLoop_drain_notif k (s : Stream) :
  writeLoop_drain (WakeNotif :: k) s =
    match messageNotifChan s with
    | [] => Done LoopAwaiting s
    | _ :: ns =>
        bind_res (writeLoop_notified (set_messageNotifChan ns s))
          (fun _ => writeLoop_drain k)
    end.
Proof.
  simpl. unfold bind at 1, gets. simpl.
  destruct (messageNotifChan s); reflexivity.
Qed.


End StrictPriority.

Section StrictPriorityTheorem.
Context {Tr : Transport}.



End StrictPriorityTheorem.

Section HandshakeFacts.
Context {Tr : Transport} {Pk : Package}.

Lemma invalid_client_false (msg : HelloMsg) (s : Stream) :
  NodeId msg = peer_String (pid s) -> HelloClientVersion msg = ClientVersion ->
  invalid_client msg s = false.
Proof.
  intros Hn Hv. unfold invalid_client, CheckClientVersionCompatibility.
  rewrite !bool_decide_eq_true_2 by congruence. reflexivity.
Qed.


Lemma register_and_finish (s : Stream) :
  handshakeSucceedCh s = [] ->
  bind (emit AddPeerStream) (fun _ => finishHandshake) s = Done tt (handshaken s).
Proof.
  intros Hh. unfold bind, emit, finishHandshake, bind, modify,
    send_handshakeSucceedCh, blocking. simpl.
  rewrite Hh. simpl. unfold handshaken. f_equal.
  apply Stream_ext; simpl; rewrite ?Hh, <- ?app_assoc; reflexivity.
Qed.

(** [finishHandshake] sets the status whatever it was, before the send. *)
Lemma finishHandshake_status (s : Stream) :
  status (after (finishHandshake s)) = streamStatusHandshakeSucceed.
Proof.
  unfold finishHandshake, bind, modify, send_handshakeSucceedCh, blocking. simpl.
  destruct (bool_decide _); reflexivity.
Qed.

Lemma finishHandshake_parks (s : Stream) :
  handshakeSucceedCh s <> [] ->
  exists k, finishHandshake s =
    Blocked WaitSendHandshakeSucceed (set_status streamStatusHandshakeSucceed s) k.
Proof.
  intros Hh. unfold finishHandshake, bind, modify, send_handshakeSucceedCh, blocking.
  simpl. destruct (handshakeSucceedCh s) eqn:E; [congruence|]. simpl.
  eexists. reflexivity.
Qed.


End HandshakeFacts.

Section ReturnsFacts.
Context {Tr : Transport}.

Lemma returns_top {A} (r : Res A) : returns (fun _ _ => True) r.
Proof. induction r; constructor; auto. Qed.

Lemma returns_bind {A B} (P : A -> Stream -> Prop) (Q : B -> Stream -> Prop)
    (r : Res A) (f : A -> M B) :
  returns P r -> (forall a s, P a s -> returns Q (f a s)) ->
  returns Q (bind_res r f).
Proof.
  intros Hr Hf. induction Hr; simpl; [auto|]. constructor. auto.
Qed.

Lemma returns_weaken {A} (P Q : A -> Stream -> Prop) (r : Res A) :
  returns P r -> (forall a s, P a s -> Q a s) -> returns Q r.
Proof. intros Hr HPQ. induction Hr; constructor; auto. Qed.

Lemma close_when_free reason (s : Stream) :
  syncMutex s = false ->
  status (after (close reason s)) = streamStatusClosed /\
  match close reason s with
  | Done _ s1 => syncMutex s1 = false
  | Blocked _ _ _ => True
  end.
Proof.
  intros Hm.
  destruct (decide (status s = streamStatusClosed)) as [Hs|Hs].
  { rewrite close_already_closed by assumption. auto. }
  destruct (quitWriteCh s) as [|q qs] eqn:Hq.
  - rewrite close_tears_down by assumption. simpl.
    rewrite torn_down_status, torn_down_syncMutex. auto.
  - destruct (close_parks_on_quit reason s Hm Hs) as [k Hk]; [congruence|].
    rewrite Hk. simpl. auto.
Qed.

Lemma Write_when_free (data : list byte) (s : Stream) :
  syncMutex s = false ->
  match Write data s with
  | Done _ s1 => syncMutex s1 = false
  | Blocked _ s1 _ => status s1 = streamStatusClosed
  end.
Proof.
  intros Hm. rewrite Write_cases.
  destruct (stream s) as [c|] eqn:Hc.
  - cbv zeta.
    destruct (SetWriteDeadline c _) as [[err|] c1]; [exact Hm|].
    destruct (conn_Write c1 data) as [[n [err|]] c2]; [|exact Hm].
    match goal with |- context [bind (close err) _ ?s0] =>
      destruct (close_when_free err s0 Hm) as [Hs Hf];
      unfold bind; destruct (close err s0) as [[] s1|w s1 k]; simpl in *; assumption
    end.
  - unfold bind.
    destruct (close_when_free ErrStreamIsNotConnected s Hm) as [Hs Hf].
    destruct (close _ s) as [[] s1|w s1 k]; simpl in *; assumption.
Qed.

End ReturnsFacts.

Section ByeFacts.
Context {Tr : Transport} {Pk : Package}.

(** [Bye] leaves the stream closed. *)
Lemma Bye_closes (s : Stream) :
  syncMutex s = false -> status (after (Bye s)) = streamStatusClosed.
Proof.
  intros Hm. unfold Bye, bind, WriteMessage, bind, gets. simpl.
  destruct (NewNebMessage s DefaultReserved 0 BYE []) as [err|message]; simpl.
  - apply close_when_free. assumption.
  - unfold WriteNebMessage.
    pose proof (Write_when_free (Content message) s Hm) as Hw.
    destruct (Write (Content message) s) as [a s1|w s1 k]; simpl; [|assumption].
    apply close_when_free. assumption.
Qed.

Lemma Bye_then_return (s : Stream) :
  let r := bind Bye (fun _ => ret InnerReturn) s in
  returns (fun o _ => o = InnerReturn) r /\
  (syncMutex s = false -> status (after r) = streamStatusClosed).
Proof.
  simpl. split.
  - unfold bind at 1. apply returns_bind with (P := fun _ _ => True).
    + apply returns_top.
    + intros. constructor. reflexivity.
  - intros Hm. pose proof (Bye_closes s Hm) as Hb. unfold bind at 1.
    destruct (Bye s) as [[] s1|w s1 k]; simpl in *; assumption.
Qed.

(** The bookkeeping at the head of [handleMessage] touches neither the
    status nor the mutex. *)
Lemma count_message_status message (s : Stream) :
  status (count_message message s) = status s /\
  syncMutex (count_message message s) = syncMutex s /\
  trace (count_message message s) = trace s.
Proof. unfold count_message. simpl. auto. Qed.



End ByeFacts.

Section ReadLoopFacts.
Context {Tr : Transport} {Pk : Package}.

Lemma readLoop_data_handles pending message (buf : list byte) (s : Stream) :
  (DataLength pending <= length buf)%nat ->
  ParseMessageData pending buf = inr message ->
  readLoop_data pending buf s =
    bind (handleMessage message)
      (fun err =>
         if bool_decide (err = Some ErrShouldCloseConnectionAndExitLoop)
         then bind Bye (fun _ => ret InnerReturn)
         else ret (InnerNext (drop (DataLength message) buf))) s.
Proof.
  intros Hl Hp. unfold readLoop_data.
  rewrite bool_decide_eq_false_2 by lia. rewrite Hp. reflexivity.
Qed.



End ReadLoopFacts.

Section InnerLoopEnds.
Context {Tr : Transport} {Pk : Package}.

Lemma readLoop_data_progress pending (buf : list byte) (s : Stream) :
  returns (fun o _ => forall b, o = InnerNext b -> (length b <= length buf)%nat)
    (readLoop_data pending buf s).
Proof.
  unfold readLoop_data. case_bool_decide.
  { constructor. discriminate. }
  destruct (ParseMessageData pending buf) as [err|message].
  - unfold bind at 1. apply returns_bind with (P := fun _ _ => True).
    + apply returns_top.
    + intros. constructor. discriminate.
  - unfold bind at 1. apply returns_bind with (P := fun _ _ => True).
    + apply returns_top.
    + intros err s1 _. case_bool_decide.
      * unfold bind at 1. apply returns_bind with (P := fun _ _ => True).
        -- apply returns_top.
        -- intros. constructor. discriminate.
      * constructor. intros b [= <-]. rewrite length_drop. lia.
Qed.

Lemma readLoop_body_progress (message : option NebMessage) (buf : list byte)
    (s : Stream) :
  returns (fun o _ => forall b, o = InnerNext b ->
             (length b + 1 <= length buf + pending_weight message)%nat)
    (readLoop_body message buf s).
Proof.
  destruct message as [pending|]; simpl.
  - eapply returns_weaken; [apply readLoop_data_progress|].
    intros o s' H b Hb. specialize (H b Hb). simpl in H. lia.
  - case_bool_decide as Hl.
    { constructor. discriminate. }
    destruct (ParseNebMessage buf) as [err|pending].
    + unfold bind at 1. apply returns_bind with (P := fun _ _ => True).
      * apply returns_top.
      * intros. constructor. discriminate.
    + destruct (negb _).
      * unfold bind at 1. apply returns_bind with (P := fun _ _ => True).
        -- apply returns_top.
        -- intros. constructor. discriminate.
      * eapply returns_weaken; [apply readLoop_data_progress|].
        intros o s' H b Hb. specialize (H b Hb). simpl in H.
        rewrite length_drop in H.
        pose proof NebMessageHeaderLength_pos. lia.
Qed.

(** With the fuel [readLoop_reads] gives it, the inner [for] always ends
    by [break] or [return]. *)
Lemma readLoop_inner_ends fuel (message : option NebMessage) (buf : list byte)
    (s : Stream) :
  (length buf + pending_weight message < fuel)%nat ->
  returns (fun o _ => forall b, o <> InnerNext b) (readLoop_inner fuel message buf s).
Proof.
  revert message buf s. induction fuel as [|fuel IH]; intros message buf s Hf; [lia|].
  simpl. unfold bind at 1.
  eapply returns_bind; [apply readLoop_body_progress|].
  intros o s1 Ho. destruct o as [m b| |b]; simpl.
  - constructor. discriminate.
  - constructor. discriminate.
  - apply IH. specialize (Ho b eq_refl). simpl. lia.
Qed.

Lemma readLoop_fuel_enough (message : option NebMessage) (buf : list byte)
    (s : Stream) :
  returns (fun o _ => forall b, o <> InnerNext b)
    (readLoop_inner (S (S (length buf))) message buf s).
Proof. apply readLoop_inner_ends. destruct message; simpl; lia. Qed.

End InnerLoopEnds.

(** * Runs on the concrete transport and package *)

Section Runs.
Import Sample.
#[local] Existing Instance Sample.transport.
#[local] Existing Instance Sample.package.






(** C8, as stated, fails.  For a payload of 5120 bytes written at time 0
    the deadline set on the transport is 2 seconds, whereas
    [max(1, ceil(5120/5120))] is 1 second. *)
Lemma deadline_of_5120_bytes :
  let data := repeat Byte.x00 (5 * 1024) in
  hd_error (trace (after (Write data inbound))) =
    Some (TransportSetWriteDeadline (clock inbound + 2 * Second)) /\
  spec_write_seconds (Z.of_nat (length data)) = 1 /\
  TransportSetWriteDeadline (clock inbound + 2 * Second) <>
    TransportSetWriteDeadline
      (clock inbound + spec_write_seconds (Z.of_nat (length data)) * Second).
Proof.
  cbv zeta. split; [vm_compute; reflexivity|].
  split; [vm_compute; reflexivity|]. vm_compute. discriminate.
Qed.

(** The amended C8 for a payload of 5121 bytes written at time 0: two
    seconds. *)
Lemma Write_deadline_witness :
  let data := repeat Byte.x00 (5 * 1024 + 1) in
  exists rest,
    trace (after (Write data inbound)) =
      trace inbound ++ TransportSetWriteDeadline (clock inbound + 2 * Second) :: rest.
Proof.
  cbv zeta.
  destruct (Write_deadline inbound fresh_conn (repeat Byte.x00 (5 * 1024 + 1))) as [H _].
  - reflexivity.
  - vm_compute. reflexivity.
  - exact H.
Defined.

(** C10, as stated, fails in its last clause.  On the stream created from
    a peer id, [Write] returns ErrStreamIsNotConnected and closes the stream,
    no transport attached.  The stream is not unusable for that: its read
    loop, run afterwards, dials the peer, attaches the transport and writes
    its HELLO; a further [Write] returns nil and its payload is on the
    transport, the status being CLOSED all along; and a valid OK read by
    that loop sets the status to HANDSHAKE_SUCCEEDED. *)
Lemma Write_closed_stream_dialled_again :
  let closed := after (Write [Byte.x2a] outbound) in
  let hello := received Byte.x00 HELLO (marshal_hello (mkHello "local" ClientVersion)) in
  let dialled := after (readLoop [] closed) in
  Write [Byte.x2a] outbound = Done (Some ErrStreamIsNotConnected) closed /\
  status closed = streamStatusClosed /\
  stream closed = None /\
  quitWriteCh closed = [true] /\
  (exists s', readLoop [] closed = Done LoopAwaiting s') /\
  status dialled = streamStatusClosed /\
  stream dialled <> None /\
  writes (trace dialled) = [Content hello] /\
  (exists s', Write [Byte.x2a] dialled = Done None s' /\
              status s' = streamStatusClosed /\
              writes (trace s') = [Content hello; [Byte.x2a]]) /\
  status (after (readLoop [inr (frame Byte.x00 OK hello_payload)] closed))
    = streamStatusHandshakeSucceed.
Proof.
  cbv zeta.
  split; [vm_compute; reflexivity|].
  split; [vm_compute; reflexivity|].
  split; [vm_compute; reflexivity|].
  split; [vm_compute; reflexivity|].
  split; [vm_compute; eexists; reflexivity|].
  split; [vm_compute; reflexivity|].
  split; [vm_compute; discriminate|].
  split; [vm_compute; reflexivity|].
  split.
  - eexists. split; [vm_compute; reflexivity|]. split; vm_compute; reflexivity.
  - vm_compute. reflexivity.
Qed.

(** The amended C10 on the stream created from a peer id and not connected
    yet. *)
Lemma Write_not_connected_closes_witness :
  exists s',
    Write [Byte.x2a] outbound = Done (Some ErrStreamIsNotConnected) s' /\
    status s' = streamStatusClosed /\
    trace s' = [RemoveStream; RemovePeerStream; QuitWriteSignal] /\
    quitWriteCh s' = [true].
Proof.
  destruct (Write_not_connected_closes outbound [Byte.x2a]) as [_ H].
  - reflexivity.
  - reflexivity.
  - destruct H as (s' & H1 & H2 & H3 & H4 & _).
    + discriminate.
    + reflexivity.
    + exists s'. auto.
Defined.

(** C9 on a stream whose queues are full, on the accepted stream, and for a
    message name that cannot be framed. *)
Lemma SendMessage_priorities_witness :
  (exists k, SendMessage "newblock" [Byte.x2a] MessagePriorityHigh congested =
               Blocked WaitSendHighPriority congested k) /\
  SendMessage "newblock" [Byte.x2a] MessagePriorityNormal congested = Done None congested /\
  SendMessage "newblock" [Byte.x2a] MessagePriorityLow congested = Done None congested /\
  SendMessage "newblock" [Byte.x2a] MessagePriorityHigh inbound =
    Done None (notified (set_highPriorityMessageChan [newblock] inbound)) /\
  SendMessage "a name of more than twelve bytes" [] MessagePriorityLow inbound =
    Done (Some (ErrOther "message name exceeds")) inbound.
Proof.
  split; [|split; [|split; [|split]]].
  - destruct (SendMessage_priorities congested "newblock" [Byte.x2a]
                MessagePriorityHigh) as [_ H].
    destruct (H newblock eq_refl) as (Hh & _ & _).
    destruct (Hh eq_refl) as [_ Hfull].
    destruct Hfull as (k & Hk & _).
    + vm_compute. apply le_n.
    + exists k. exact Hk.
  - destruct (SendMessage_priorities congested "newblock" [Byte.x2a]
                MessagePriorityNormal) as [_ H].
    destruct (H newblock eq_refl) as (_ & Hn & _).
    destruct (Hn eq_refl) as [_ Hfull].
    apply Hfull. vm_compute. apply le_n.
  - destruct (SendMessage_priorities congested "newblock" [Byte.x2a]
                MessagePriorityLow) as [_ H].
    destruct (H newblock eq_refl) as (_ & _ & Hl).
    destruct Hl as [_ Hfull]; [discriminate|discriminate|].
    apply Hfull. vm_compute. apply le_n.
  - destruct (SendMessage_priorities inbound "newblock" [Byte.x2a]
                MessagePriorityHigh) as [_ H].
    destruct (H newblock eq_refl) as (Hh & _ & _).
    destruct (Hh eq_refl) as [Hroom _].
    apply Hroom. simpl. apply Nat.lt_0_succ.
  - destruct (SendMessage_priorities inbound "a name of more than twelve bytes" []
                MessagePriorityLow) as [H _].
    apply H. reflexivity.
Defined.


(** C3 on the accepted stream: a second [close], and three calls in a row. *)
Lemma close_idempotent_witness :
  close (ErrOther "again") (torn_down inbound) = Done tt (torn_down inbound) /\
  (occurrences TransportClose
     (trace (closes [ErrOther "Handshake timeout"; ErrOther "bye: force close";
                     ErrStreamIsNotConnected] inbound))
   <= occurrences TransportClose (trace inbound) + 1)%nat.
Proof.
  destruct close_idempotent as (H1 & H2 & _). split.
  - apply (H1 inbound (torn_down inbound) (ErrOther "Handshake timeout")).
    apply close_tears_down; [reflexivity|discriminate|reflexivity].
  - apply H2.
Defined.



(** C2 fails on the code.  The accepted stream is closed by the write
    loop on the handshake timeout (status CLOSED); a valid HELLO handled
    afterwards, by [finishHandshake] alone, through [handleMessage] or by
    the read loop, sets the status back to HANDSHAKE_SUCCEEDED.  The same
    happens inside the read loop alone when the peer went away: the reply
    to a first HELLO fails and closes the stream, and a second HELLO of
    the same chunk re-registers the stream and sets HANDSHAKE_SUCCEEDED. *)
Theorem closed_stream_reopened :
  let closed := after (writeLoop WakeHandshakeTimeout [] inbound) in
  let hello := frame Byte.x00 HELLO hello_payload in
  status closed = streamStatusClosed /\
  status (after (finishHandshake closed)) = streamStatusHandshakeSucceed /\
  status (after (handleMessage valid_hello closed)) = streamStatusHandshakeSucceed /\
  status (after (readLoop_reads [inr hello] None [] closed))
    = streamStatusHandshakeSucceed /\
  status (after (readLoop [inr hello] inbound_broken)) = streamStatusClosed /\
  status (after (readLoop [inr (hello ++ hello)] inbound_broken))
    = streamStatusHandshakeSucceed.
Proof. cbv zeta. repeat split; vm_compute; reflexivity. Qed.

(** C6 fails on the code.  On the accepted stream, a valid OK signals the
    handshake barrier, the write loop receives the signal, and a second
    valid OK signals the barrier again: two signals in the trace.  When the
    write loop has not received the first signal yet, the read loop parks
    at the second send. *)
Theorem handshake_barrier_signalled_twice :
  let r := (let* _ := handleMessage valid_ok in
            let* _ := writeLoop WakeHandshakeSucceed [] in
            handleMessage valid_ok) inbound in
  let ok := frame Byte.x00 OK hello_payload in
  (exists s', r = Done None s') /\
  occurrences HandshakeSucceedSignal (trace (after r)) = 2%nat /\
  exists s' k, readLoop [inr (ok ++ ok)] inbound = Blocked WaitSendHandshakeSucceed s' k.
Proof.
  cbv zeta. split; [vm_compute; eexists; reflexivity|].
  split; [vm_compute; reflexivity|].
  vm_compute. eexists. eexists. reflexivity.
Qed.

End Runs.

(** * Further properties *)

(** ** What every operation preserves *)

Section RespectsFacts.
Context {Tr : Transport} {Pk : Package}.
Variable R : Stream -> Stream -> Prop.
Hypothesis R_refl : forall s, R s s.
Hypothesis R_trans : forall s1 s2 s3, R s1 s2 -> R s2 s3 -> R s1 s3.

Lemma respects_first {A} (s s' : Stream) (r : Res A) :
  R s s' -> respects R s' r -> respects R s r.
Proof.
  intros H Hr. destruct r as [a s2|w s2 k]; simpl in *.
  - eauto.
  - destruct Hr as [H1 H2]. split; eauto.
Qed.

Lemma respects_bind_res {A B} (s : Stream) (r : Res A) (f : A -> M B) :
  respects R s r -> (forall a s', respects R s' (f a s')) ->
  respects R s (bind_res r f).
Proof.
  intros Hr Hf. revert s Hr. induction r as [a s2|w s2 k IH]; intros s Hr; simpl in *.
  - eapply respects_first; eauto.
  - destruct Hr as [H1 H2]. split; [assumption|]. intros s1. apply IH. apply H2.
Qed.

Lemma respects_bind {A B} (m : M A) (f : A -> M B) (s : Stream) :
  respects R s (m s) -> (forall a s', respects R s' (f a s')) ->
  respects R s (bind m f s).
Proof. apply respects_bind_res. Qed.

Lemma respects_after {A} (s : Stream) (r : Res A) : respects R s r -> R s (after r).
Proof. destruct r; simpl; tauto. Qed.

Lemma respects_ret {A} (a : A) (s : Stream) : respects R s (ret a s).
Proof. apply R_refl. Qed.

Lemma respects_gets {A} (f : Stream -> A) (s : Stream) : respects R s (gets f s).
Proof. apply R_refl. Qed.

Lemma respects_modify (f : Stream -> Stream) (s : Stream) :
  (forall s, R s (f s)) -> respects R s (modify f s).
Proof. intros H. apply H. Qed.

Lemma respects_blocking w (f : Stream -> Stream) (s : Stream) :
  (forall s, R s (f s)) -> respects R s (blocking w f s).
Proof.
  intros H. unfold blocking. destruct (ready w s); simpl; [apply H|].
  split; [apply R_refl|]. intros s1. apply H.
Qed.

Hypothesis R_syncMutex : forall v s, R s (set_syncMutex v s).
Hypothesis R_trace : forall v s, R s (set_trace v s).
Hypothesis R_quitWriteCh : forall v s, R s (set_quitWriteCh v s).
Hypothesis R_closed : forall s, R s (set_status streamStatusClosed s).
Hypothesis R_stream : forall c s, R s (set_stream (Some c) s).
Hypothesis R_latestWriteAt : forall v s, R s (set_latestWriteAt v s).

Lemma emit_respects e (s : Stream) : respects R s (emit e s).
Proof. apply respects_modify. intros s0. apply R_trace. Qed.

Lemma close_respects reason (s : Stream) : respects R s (close reason s).
Proof.
  unfold close.
  apply respects_bind; [apply respects_blocking, R_syncMutex|]. intros _ s1.
  apply respects_bind; [apply respects_gets|]. intros st s2.
  destruct (bool_decide (st = streamStatusClosed)).
  { apply respects_modify, R_syncMutex. }
  apply respects_bind; [apply respects_modify, R_closed|]. intros _ s3.
  apply respects_bind; [apply emit_respects|]. intros _ s4.
  apply respects_bind; [apply emit_respects|]. intros _ s5.
  apply respects_bind.
  { apply respects_blocking. intros s0. eapply R_trans; [apply R_quitWriteCh|apply R_trace]. }
  intros _ s6.
  apply respects_bind; [apply respects_gets|]. intros c s7.
  apply respects_bind; [|intros _ s8; apply respects_modify, R_syncMutex].
  destruct c as [c|]; [|apply respects_ret].
  apply respects_bind; [apply emit_respects|]. intros _ s8.
  apply respects_modify. intros s0. apply R_stream.
Qed.

Lemma Write_respects data (s : Stream) : respects R s (Write data s).
Proof.
  unfold Write.
  apply respects_bind; [apply respects_gets|]. intros c s1.
  destruct c as [c|].
  2: { apply respects_bind; [apply close_respects|]. intros _ s2. apply respects_ret. }
  apply respects_bind; [apply respects_gets|]. intros now s2.
  destruct (SetWriteDeadline c _) as [err c1].
  apply respects_bind; [apply emit_respects|]. intros _ s3.
  apply respects_bind; [apply respects_modify; intros s0; apply R_stream|]. intros _ s4.
  destruct err as [err|]; [apply respects_ret|].
  destruct (conn_Write c1 data) as [[n err] c2].
  apply respects_bind; [apply emit_respects|]. intros _ s5.
  apply respects_bind; [apply respects_modify; intros s0; apply R_stream|]. intros _ s6.
  destruct err as [err|].
  - apply respects_bind; [apply close_respects|]. intros _ s7. apply respects_ret.
  - apply respects_bind; [apply respects_modify; intros s0; apply R_latestWriteAt|].
    intros _ s7. apply respects_ret.
Qed.


Lemma WriteNebMessage_respects message (s : Stream) :
  respects R s (WriteNebMessage message s).
Proof. apply Write_respects. Qed.

Lemma WriteMessage_respects name data (s : Stream) :
  respects R s (WriteMessage name data s).
Proof.
  unfold WriteMessage.
  apply respects_bind; [apply respects_gets|]. intros s0 s1.
  destruct (NewNebMessage s0 DefaultReserved 0 name data);
    [exact (R_refl _)|apply WriteNebMessage_respects].
Qed.

Lemma WriteProtoMessage_respects name pb (s : Stream) :
  respects R s (WriteProtoMessage name pb s).
Proof.
  unfold WriteProtoMessage.
  destruct (proto_Marshal pb); [exact (R_refl _)|apply WriteMessage_respects].
Qed.

Lemma Bye_respects (s : Stream) : respects R s (Bye s).
Proof.
  unfold Bye. apply respects_bind; [apply WriteMessage_respects|].
  intros _ s1. apply close_respects.
Qed.

Hypothesis R_highPriorityMessageChan : forall v s, R s (set_highPriorityMessageChan v s).
Hypothesis R_normalPriorityMessageChan : forall v s, R s (set_normalPriorityMessageChan v s).
Hypothesis R_lowPriorityMessageChan : forall v s, R s (set_lowPriorityMessageChan v s).
Hypothesis R_messageNotifChan : forall v s, R s (set_messageNotifChan v s).

Lemma SendMessage_respects name data priority (s : Stream) :
  respects R s (SendMessage name data priority s).
Proof.
  assert (Hnotify : forall s0 : Stream,
    respects R s0 (bind (trysend_messageNotifChan 1) (fun _ => ret (@None error)) s0)).
  { intros s0. apply respects_bind; [|intros; exact (R_refl _)].
    unfold trysend_messageNotifChan. destruct (bool_decide _); simpl; auto. }
  unfold SendMessage.
  apply respects_bind; [apply respects_gets|]. intros s0 s1.
  destruct (NewNebMessage s0 DefaultReserved 0 name data) as [err|message];
    [exact (R_refl _)|].
  destruct (bool_decide (priority = MessagePriorityHigh)).
  { apply respects_bind; [|intros; apply Hnotify].
    apply respects_blocking. intros s2. apply R_highPriorityMessageChan. }
  destruct (bool_decide (priority = MessagePriorityNormal)).
  - apply respects_bind.
    + unfold trysend_normalPriorityMessageChan. destruct (bool_decide _); simpl; auto.
    + intros [] s2; [apply Hnotify|exact (R_refl _)].
  - apply respects_bind.
    + unfold trysend_lowPriorityMessageChan. destruct (bool_decide _); simpl; auto.
    + intros [] s2; [apply Hnotify|exact (R_refl _)].
Qed.

Lemma SendProtoMessage_respects name pb priority (s : Stream) :
  respects R s (SendProtoMessage name pb priority s).
Proof.
  unfold SendProtoMessage.
  destruct (proto_Marshal pb); [exact (R_refl _)|apply SendMessage_respects].
Qed.

Lemma RouteTable_respects (s : Stream) : respects R s (RouteTable s).
Proof.
  unfold RouteTable. apply respects_bind; [apply respects_gets|].
  intros p s1. apply SendProtoMessage_respects.
Qed.

Lemma onRouteTable_respects message data (s : Stream) :
  respects R s (onRouteTable message data s).
Proof.
  unfold onRouteTable. destruct (proto_Unmarshal_Peers data); [exact (R_refl _)|].
  apply respects_bind; [apply emit_respects|]. intros; exact (R_refl _).
Qed.

(** What [handleMessage] does to a message that is neither HELLO nor OK,
    once it is counted. *)
Lemma handleMessage_other_respects message (s : Stream) :
  MessageName message <> HELLO -> MessageName message <> OK ->
  respects R (count_message message s) (handleMessage message s).
Proof.
  intros Hh Ho. unfold handleMessage. unfold bind at 1. unfold modify at 1.
  cbn [bind_res].
  match goal with |- context [match ?u with inl _ => _ | inr _ => _ end] =>
    destruct u as [err|data] end; [exact (R_refl _)|].
  rewrite (bool_decide_eq_false_2 _ Hh), (bool_decide_eq_false_2 _ Ho).
  destruct (bool_decide (MessageName message = BYE)); [exact (R_refl _)|].
  apply respects_bind; [apply respects_gets|]. intros st s1.
  destruct (negb _); [exact (R_refl _)|].
  destruct (bool_decide (MessageName message = SYNCROUTE)); [apply RouteTable_respects|].
  destruct (bool_decide (MessageName message = ROUTETABLE));
    [apply onRouteTable_respects|].
  apply respects_bind; [apply respects_gets|]. intros p s2.
  apply respects_bind; [apply emit_respects|]. intros _ s3.
  apply respects_bind; [apply emit_respects|]. intros; exact (R_refl _).
Qed.

Hypothesis R_handshakeSucceedCh : forall v s, R s (set_handshakeSucceedCh v s).

Lemma writeLoop_notified_respects (s : Stream) : respects R s (writeLoop_notified s).
Proof.
  assert (Hw : forall m (s0 : Stream),
    respects R s0 (bind (WriteNebMessage m) (fun _ => ret tt) s0)).
  { intros m s0. apply respects_bind; [apply WriteNebMessage_respects|].
    intros; exact (R_refl _). }
  unfold writeLoop_notified.
  apply respects_bind; [apply respects_gets|]. intros [|m rest] s1.
  2: { apply respects_bind; [apply respects_modify; auto|]. intros; apply Hw. }
  apply respects_bind; [apply respects_gets|]. intros [|m rest] s2.
  2: { apply respects_bind; [apply respects_modify; auto|]. intros; apply Hw. }
  apply respects_bind; [apply respects_gets|]. intros [|m rest] s3.
  2: { apply respects_bind; [apply respects_modify; auto|]. intros; apply Hw. }
  exact (R_refl _).
Qed.

Lemma writeLoop_drain_respects wakes (s : Stream) :
  respects R s (writeLoop_drain wakes s).
Proof.
  revert s. induction wakes as [|[|] wakes IH]; intros s; simpl.
  - exact (R_refl _).
  - apply respects_bind; [apply respects_gets|]. intros [|q qs] s1;
      [exact (R_refl _)|].
    apply respects_bind; [apply respects_modify; auto|]. intros; exact (R_refl _).
  - apply respects_bind; [apply respects_gets|]. intros [|n ns] s1;
      [exact (R_refl _)|].
    apply respects_bind; [apply respects_modify; auto|]. intros _ s2.
    apply respects_bind; [apply writeLoop_notified_respects|]. intros _ s3. apply IH.
Qed.

Lemma writeLoop_respects wake wakes (s : Stream) :
  respects R s (writeLoop wake wakes s).
Proof.
  destruct wake; simpl.
  - apply respects_bind; [apply respects_gets|]. intros [|h hs] s1;
      [exact (R_refl _)|].
    apply respects_bind; [apply respects_modify; auto|]. intros _ s2.
    apply writeLoop_drain_respects.
  - apply respects_bind; [apply respects_gets|]. intros [|q qs] s1;
      [exact (R_refl _)|].
    apply respects_bind; [apply respects_modify; auto|]. intros; exact (R_refl _).
  - apply respects_bind; [apply close_respects|]. intros; exact (R_refl _).
Qed.

Hypothesis R_handshaken : forall s, R s (set_status streamStatusHandshakeSucceed s).

Lemma finishHandshake_respects (s : Stream) : respects R s (finishHandshake s).
Proof.
  unfold finishHandshake.
  apply respects_bind; [apply respects_modify, R_handshaken|]. intros _ s1.
  apply respects_blocking. intros s0.
  eapply R_trans; [apply R_handshakeSucceedCh|apply R_trace].
Qed.

Lemma onHello_respects message data (s : Stream) :
  respects R s (onHello message data s).
Proof.
  unfold onHello. destruct (HelloMessageFromProto data); [exact (R_refl _)|].
  apply respects_bind; [apply respects_gets|]. intros [] s1; [exact (R_refl _)|].
  apply respects_bind; [apply emit_respects|]. intros _ s2.
  apply respects_bind; [apply finishHandshake_respects|]. intros _ s3.
  apply WriteProtoMessage_respects.
Qed.

Lemma onOk_respects message data (s : Stream) :
  respects R s (onOk message data s).
Proof.
  unfold onOk. destruct (OKMessageFromProto data); [exact (R_refl _)|].
  apply respects_bind; [apply respects_gets|]. intros [] s1; [exact (R_refl _)|].
  apply respects_bind; [apply emit_respects|]. intros _ s2.
  apply respects_bind; [apply finishHandshake_respects|]. intros; exact (R_refl _).
Qed.

(** [handleMessage], once the message is counted. *)
Lemma handleMessage_counted_respects message (s : Stream) :
  respects R (count_message message s) (handleMessage message s).
Proof.
  destruct (decide (MessageName message = HELLO)) as [Hh|Hh].
  { unfold handleMessage. unfold bind at 1. unfold modify at 1. cbn [bind_res].
    match goal with |- context [match ?u with inl _ => _ | inr _ => _ end] =>
      destruct u as [err|data] end; [exact (R_refl _)|].
    rewrite (bool_decide_eq_true_2 _ Hh). apply onHello_respects. }
  destruct (decide (MessageName message = OK)) as [Ho|Ho].
  { unfold handleMessage. unfold bind at 1. unfold modify at 1. cbn [bind_res].
    match goal with |- context [match ?u with inl _ => _ | inr _ => _ end] =>
      destruct u as [err|data] end; [exact (R_refl _)|].
    rewrite (bool_decide_eq_false_2 _ Hh), (bool_decide_eq_true_2 _ Ho).
    apply onOk_respects. }
  apply handleMessage_other_respects; assumption.
Qed.

Hypothesis R_count_message : forall message s, R s (count_message message s).

Lemma handleMessage_respects message (s : Stream) :
  respects R s (handleMessage message s).
Proof.
  eapply respects_first; [apply R_count_message|apply handleMessage_counted_respects].
Qed.

Hypothesis R_latestReadAt : forall v s, R s (set_latestReadAt v s).
Hypothesis R_addr : forall v s, R s (set_addr v s).

Lemma readLoop_data_respects message buf (s : Stream) :
  respects R s (readLoop_data message buf s).
Proof.
  assert (Hbye : forall s0 : Stream,
    respects R s0 (bind Bye (fun _ => ret InnerReturn) s0)).
  { intros s0. apply respects_bind; [apply Bye_respects|]. intros; exact (R_refl _). }
  unfold readLoop_data. destruct (bool_decide _); [exact (R_refl _)|].
  destruct (ParseMessageData message buf) as [err|m]; [apply Hbye|].
  apply respects_bind; [apply handleMessage_respects|]. intros err s1.
  destruct (bool_decide _); [apply Hbye|exact (R_refl _)].
Qed.

Lemma readLoop_body_respects message buf (s : Stream) :
  respects R s (readLoop_body message buf s).
Proof.
  destruct message as [m|]; simpl; [apply readLoop_data_respects|].
  destruct (bool_decide _); [exact (R_refl _)|].
  destruct (ParseNebMessage buf) as [err|m].
  { apply respects_bind; [apply Bye_respects|]. intros; exact (R_refl _). }
  destruct (negb _); [|apply readLoop_data_respects].
  apply respects_bind; [apply Bye_respects|]. intros; exact (R_refl _).
Qed.

Lemma readLoop_inner_respects fuel message buf (s : Stream) :
  respects R s (readLoop_inner fuel message buf s).
Proof.
  revert message buf s. induction fuel as [|fuel IH]; intros message buf s; simpl.
  - exact (R_refl _).
  - apply respects_bind; [apply readLoop_body_respects|].
    intros [m b| |b] s1; [exact (R_refl _)|exact (R_refl _)|apply IH].
Qed.

Lemma readLoop_reads_respects reads message buf (s : Stream) :
  respects R s (readLoop_reads reads message buf s).
Proof.
  revert message buf s. induction reads as [|[err|chunk] reads IH];
    intros message buf s; cbn [readLoop_reads]; cbv zeta.
  - exact (R_refl _).
  - apply respects_bind; [apply close_respects|]. intros; exact (R_refl _).
  - apply respects_bind; [apply respects_modify; intros s0; apply R_latestReadAt|].
    intros _ s1.
    apply respects_bind; [apply readLoop_inner_respects|].
    intros [m b| |b] s2; [apply IH|exact (R_refl _)|apply IH].
Qed.

Lemma Connect_respects (s : Stream) : respects R s (Connect s).
Proof.
  unfold Connect. apply respects_bind; [apply respects_gets|]. intros p s1.
  destruct (host_NewStream p NebProtocolID) as [err|[c a]]; [exact (R_refl _)|].
  apply respects_bind; [apply respects_modify; intros s0; apply R_stream|]. intros _ s2.
  apply respects_bind; [apply respects_modify; intros s0; apply R_addr|].
  intros; exact (R_refl _).
Qed.

Lemma readLoop_respects reads (s : Stream) : respects R s (readLoop reads s).
Proof.
  unfold readLoop. apply respects_bind; [apply respects_gets|].
  intros [] s1; [apply readLoop_reads_respects|].
  apply respects_bind; [apply Connect_respects|]. intros [err|] s2.
  { apply respects_bind; [apply close_respects|]. intros; exact (R_refl _). }
  apply respects_bind; [apply WriteProtoMessage_respects|]. intros [err|] s3.
  { apply respects_bind; [apply close_respects|]. intros; exact (R_refl _). }
  apply readLoop_reads_respects.
Qed.

End RespectsFacts.

Section Invariants.
Context {Tr : Transport} {Pk : Package}.

Ltac holds R :=
  intros; unfold R in *; simpl; try tauto; try congruence.

(** X1. No operation of the stream puts the status back to INIT: along
    the read loop, the write loop, [handleMessage], [SendMessage],
    [WriteMessage], [close] and [Bye], parked stretches included, a status
    that has left INIT stays different from INIT. *)
Theorem status_never_back_to_init (s : Stream) :
  (forall reads, respects never_back_to_init s (readLoop reads s)) /\
  (forall wake wakes, respects never_back_to_init s (writeLoop wake wakes s)) /\
  (forall message, respects never_back_to_init s (handleMessage message s)) /\
  (forall name data priority,
      respects never_back_to_init s (SendMessage name data priority s)) /\
  (forall name data, respects never_back_to_init s (WriteMessage name data s)) /\
  (forall reason, respects never_back_to_init s (close reason s)) /\
  respects never_back_to_init s (Bye s).
Proof.
  split; [|split; [|split; [|split; [|split; [|split]]]]]; intros.
  - apply readLoop_respects; holds @never_back_to_init.
  - apply writeLoop_respects; holds @never_back_to_init.
  - apply handleMessage_respects; holds @never_back_to_init.
  - apply SendMessage_respects; holds @never_back_to_init.
  - apply WriteMessage_respects; holds @never_back_to_init.
  - apply close_respects; holds @never_back_to_init.
  - apply Bye_respects; holds @never_back_to_init.
Qed.

(** X2. The transport handle is never taken away: along every operation
    of the stream, a stream that is connected stays connected (closing the
    stream closes the transport but keeps the handle). *)
Theorem transport_stays_attached (s : Stream) :
  (forall reads, respects stays_attached s (readLoop reads s)) /\
  (forall wake wakes, respects stays_attached s (writeLoop wake wakes s)) /\
  (forall message, respects stays_attached s (handleMessage message s)) /\
  (forall name data priority,
      respects stays_attached s (SendMessage name data priority s)) /\
  (forall name data, respects stays_attached s (WriteMessage name data s)) /\
  (forall reason, respects stays_attached s (close reason s)) /\
  respects stays_attached s (Bye s).
Proof.
  split; [|split; [|split; [|split; [|split; [|split]]]]]; intros.
  - apply readLoop_respects; holds @stays_attached.
  - apply writeLoop_respects; holds @stays_attached.
  - apply handleMessage_respects; holds @stays_attached.
  - apply SendMessage_respects; holds @stays_attached.
  - apply WriteMessage_respects; holds @stays_attached.
  - apply close_respects; holds @stays_attached.
  - apply Bye_respects; holds @stays_attached.
Qed.

(** X3. Outside the handshake handlers the status CLOSED is stable: the
    write loop, [SendMessage], [WriteMessage], [close], [Bye], and
    [handleMessage] on any message other than HELLO and OK, leave a closed
    stream closed. *)
Theorem closed_stays_closed (s : Stream) :
  (forall wake wakes, respects stays_closed s (writeLoop wake wakes s)) /\
  (forall message,
      MessageName message <> HELLO -> MessageName message <> OK ->
      respects stays_closed s (handleMessage message s)) /\
  (forall name data priority,
      respects stays_closed s (SendMessage name data priority s)) /\
  (forall name data, respects stays_closed s (WriteMessage name data s)) /\
  (forall reason, respects stays_closed s (close reason s)) /\
  respects stays_closed s (Bye s).
Proof.
  split; [|split; [|split; [|split; [|split]]]]; intros.
  - apply writeLoop_respects; holds @stays_closed.
  - eapply respects_first with (s' := count_message message s);
      [holds @stays_closed|holds @stays_closed|].
    apply handleMessage_other_respects; try assumption; holds @stays_closed.
  - apply SendMessage_respects; holds @stays_closed.
  - apply WriteMessage_respects; holds @stays_closed.
  - apply close_respects; holds @stays_closed.
  - apply Bye_respects; holds @stays_closed.
Qed.

(** X4. [handleMessage] counts every message exactly once, whatever it
    then returns and wherever it parks: the counter of the message name goes
    up by one, the other counters are unchanged, and the compression bit of
    the message is recorded for the peer. *)
Theorem handleMessage_counts (message : NebMessage) (s : Stream) :
  let s' := after (handleMessage message s) in
  msgCount s' !! MessageName message
    = Some (wrap64 (default 0 (msgCount s !! MessageName message) + 1)) /\
  (forall name, name <> MessageName message ->
     msgCount s' !! name = msgCount s !! name) /\
  compressFlag s' !! peer_Pretty (pid s) = Some (compressFlag_of message) /\
  (forall p, p <> peer_Pretty (pid s) ->
     compressFlag s' !! p = compressFlag s !! p).
Proof.
  cbv zeta.
  assert (H : same_counts (count_message message s) (after (handleMessage message s))).
  { apply respects_after. apply handleMessage_counted_respects;
      intros; unfold same_counts in *; simpl; intuition congruence. }
  destruct H as [-> ->]. unfold count_message. simpl.
  split; [apply lookup_insert_eq|].
  split; [intros name Hn; apply lookup_insert_ne; congruence|].
  split; [apply lookup_insert_eq|].
  intros p Hp. apply lookup_insert_ne. congruence.
Qed.

End Invariants.

(** ** The message handler, case by case *)

Section HandlerFacts.
Context {Tr : Transport} {Pk : Package}.

Lemma received_payload_hello message :
  MessageName message = HELLO -> received_payload message = inr (Data message).
Proof.
  intros H. unfold received_payload. rewrite (bool_decide_eq_true_2 _ H). reflexivity.
Qed.

Lemma handleMessage_payload_failed message (s : Stream) err :
  received_payload message = inl err ->
  handleMessage message s =
    Done (Some ErrUncompressMessageFailed) (count_message message s).
Proof.
  intros H. unfold received_payload in H.
  unfold handleMessage, bind, modify. simpl. rewrite H. reflexivity.
Qed.

Lemma handleMessage_hello message (s : Stream) :
  MessageName message = HELLO ->
  handleMessage message s = onHello message (Data message) (count_message message s).
Proof.
  intros Hn. unfold handleMessage, bind at 1, modify. simpl.
  rewrite (bool_decide_eq_true_2 _ Hn). reflexivity.
Qed.

Lemma handleMessage_ok message data (s : Stream) :
  MessageName message = OK -> received_payload message = inr data ->
  handleMessage message s = onOk message data (count_message message s).
Proof.
  intros Hn H. unfold received_payload in H.
  unfold handleMessage, bind at 1, modify. simpl. rewrite H.
  rewrite Hn. reflexivity.
Qed.

Lemma handleMessage_bye message data (s : Stream) :
  MessageName message = BYE -> received_payload message = inr data ->
  handleMessage message s =
    Done (Some ErrShouldCloseConnectionAndExitLoop) (count_message message s).
Proof.
  intros Hn H. unfold received_payload in H.
  unfold handleMessage, bind at 1, modify. simpl. rewrite H.
  rewrite Hn. reflexivity.
Qed.

Lemma handleMessage_handshaken message data (s : Stream) :
  status s = streamStatusHandshakeSucceed ->
  MessageName message <> HELLO -> MessageName message <> OK ->
  MessageName message <> BYE ->
  received_payload message = inr data ->
  handleMessage message s =
    (if bool_decide (MessageName message = SYNCROUTE) then RouteTable
     else if bool_decide (MessageName message = ROUTETABLE)
     then onRouteTable message data
     else
       fun s0 =>
         Done None
           (set_trace (trace s0 ++
              [PutMessage (MessageName message) (peer_Pretty (pid s0)) data;
               RecordRecvMessage (crc32_ChecksumIEEE data)]) s0))
      (count_message message s).
Proof.
  intros Hs Hh Ho Hb H. unfold received_payload in H.
  unfold handleMessage, bind at 1, modify. simpl. rewrite H.
  rewrite (bool_decide_eq_false_2 _ Hh), (bool_decide_eq_false_2 _ Ho),
    (bool_decide_eq_false_2 _ Hb).
  unfold bind at 1, gets. simpl. rewrite Hs. simpl.
  destruct (bool_decide (MessageName message = SYNCROUTE)); [reflexivity|].
  destruct (bool_decide (MessageName message = ROUTETABLE)); [reflexivity|].
  unfold bind, gets, emit, modify, ret. simpl. f_equal.
  apply Stream_ext; simpl; rewrite <- ?app_assoc; reflexivity.
Qed.


Lemma onHello_accepts message data msg (s : Stream) :
  HelloMessageFromProto data = inr msg ->
  NodeId msg = peer_String (pid s) -> HelloClientVersion msg = ClientVersion ->
  handshakeSucceedCh s = [] ->
  onHello message data s = Ok (handshaken s).
Proof.
  intros Hp Hn Hv Hh. unfold onHello. rewrite Hp. unfold bind at 1, gets. simpl.
  rewrite invalid_client_false by assumption.
  pose proof (register_and_finish s Hh) as Hr.
  unfold bind in Hr |- *. simpl in Hr |- *.
  destruct (finishHandshake _) as [[] s1|w s1 k]; [|discriminate].
  injection Hr as ->. reflexivity.
Qed.

Lemma onOk_accepts message data msg (s : Stream) :
  OKMessageFromProto data = inr msg ->
  NodeId msg = peer_String (pid s) -> HelloClientVersion msg = ClientVersion ->
  handshakeSucceedCh s = [] ->
  onOk message data s = Done None (handshaken s).
Proof.
  intros Hp Hn Hv Hh. unfold onOk. rewrite Hp. unfold bind at 1, gets. simpl.
  rewrite invalid_client_false by assumption.
  pose proof (register_and_finish s Hh) as Hr.
  unfold bind in Hr |- *. simpl in Hr |- *.
  destruct (finishHandshake _) as [[] s1|w s1 k]; [|discriminate].
  injection Hr as ->. reflexivity.
Qed.

(** X5. A BYE whose payload is not a compressed payload that fails to
    decompress (the compression bit is clear, or [snappy.Decode] succeeds)
    gets the close signal whatever the status of the stream:
    [handleMessage] counts it and returns
    ErrShouldCloseConnectionAndExitLoop, and the read loop runs [Bye] and
    returns, leaving the stream closed when the mutex is free. *)
Theorem bye_ends_the_connection (s : Stream) (pending message : NebMessage)
    (data buf : list byte) :
  MessageName message = BYE ->
  received_payload message = inr data ->
  handleMessage message s =
    Done (Some ErrShouldCloseConnectionAndExitLoop) (count_message message s) /\
  ((DataLength pending <= length buf)%nat ->
   ParseMessageData pending buf = inr message ->
   let r := readLoop_data pending buf s in
   r = bind Bye (fun _ => ret InnerReturn) (count_message message s) /\
   returns (fun o _ => o = InnerReturn) r /\
   (syncMutex s = false -> status (after r) = streamStatusClosed)).
Proof.
  intros Hn Hd.
  pose proof (handleMessage_bye message data s Hn Hd) as Hm.
  split; [assumption|]. intros Hl Hp r.
  assert (Hr : r = bind Bye (fun _ => ret InnerReturn) (count_message message s)).
  { subst r. rewrite (readLoop_data_handles pending message) by assumption.
    unfold bind at 1. rewrite Hm. reflexivity. }
  split; [assumption|]. rewrite Hr.
  destruct (Bye_then_return (count_message message s)) as [Hret Hcl].
  split; [assumption|]. intros Hmx. apply Hcl.
  destruct (count_message_status message s) as (_ & -> & _). assumption.
Qed.

(** X6. The payload of a HELLO is never decompressed: a valid HELLO
    completes the handshake through [handleMessage] whatever its compression
    bit says, and the handler goes on as [Ok] from the handshaken stream.
    The payload of an OK is decompressed when the bit is set, and it is the
    decompressed payload that must hold the node id and the client
    version. *)
Theorem handshake_through_handleMessage (s : Stream) (message : NebMessage)
    (msg : HelloMsg) :
  NodeId msg = peer_String (pid s) -> HelloClientVersion msg = ClientVersion ->
  handshakeSucceedCh s = [] ->
  (MessageName message = HELLO ->
   HelloMessageFromProto (Data message) = inr msg ->
   handleMessage message s = Ok (handshaken (count_message message s))) /\
  (forall data,
   MessageName message = OK ->
   received_payload message = inr data ->
   OKMessageFromProto data = inr msg ->
   handleMessage message s = Done None (handshaken (count_message message s))).
Proof.
  intros Hn Hv Hh. split.
  - intros Hname Hp. rewrite handleMessage_hello by assumption.
    apply (onHello_accepts message (Data message) msg); assumption.
  - intros data Hname Hd Hp. rewrite (handleMessage_ok message data) by assumption.
    apply (onOk_accepts message data msg); assumption.
Qed.

(** X7. After the handshake, a message that is none of HELLO, OK, BYE,
    SYNCROUTE, ROUTETABLE, and whose payload is not a compressed payload
    that fails to decompress, is forwarded: [handleMessage] hands its name,
    the peer id and its payload (decompressed if the bit is set) to the net
    service, records the CRC32 of that payload, touches nothing else than
    the counters, and returns nil; the read loop goes on with the rest of
    the buffer. *)
Theorem application_message_forwarded (s : Stream) (pending message : NebMessage)
    (data buf : list byte) :
  status s = streamStatusHandshakeSucceed ->
  MessageName message <> HELLO -> MessageName message <> OK ->
  MessageName message <> BYE -> MessageName message <> SYNCROUTE ->
  MessageName message <> ROUTETABLE ->
  received_payload message = inr data ->
  let s' := set_trace (trace s ++
              [PutMessage (MessageName message) (peer_Pretty (pid s)) data;
               RecordRecvMessage (crc32_ChecksumIEEE data)])
              (count_message message s) in
  handleMessage message s = Done None s' /\
  ((DataLength pending <= length buf)%nat ->
   ParseMessageData pending buf = inr message ->
   readLoop_data pending buf s =
     Done (InnerNext (drop (DataLength message) buf)) s').
Proof.
  intros Hs Hh Ho Hb Hsr Hrt Hd s'.
  assert (Hm : handleMessage message s = Done None s').
  { rewrite (handleMessage_handshaken message data) by assumption.
    rewrite (bool_decide_eq_false_2 _ Hsr), (bool_decide_eq_false_2 _ Hrt).
    reflexivity. }
  split; [assumption|]. intros Hl Hp.
  rewrite (readLoop_data_handles pending message) by assumption.
  unfold bind at 1. rewrite Hm. reflexivity.
Qed.

(** X8. After the handshake, take a ROUTETABLE message whose payload is
    not a compressed payload that fails to decompress.  When the payload
    (decompressed if the bit is set) unmarshals to a list of peers, the list
    is handed to the route table ([AddPeers] with the local node id) and nil
    is returned; when it does not unmarshal, the route table is not called
    and the close signal is returned. *)
Theorem routetable_message (s : Stream) (message : NebMessage) (data : list byte) :
  status s = streamStatusHandshakeSucceed ->
  MessageName message = ROUTETABLE ->
  received_payload message = inr data ->
  (forall peers,
     proto_Unmarshal_Peers data = inr peers ->
     handleMessage message s =
       Done None (set_trace (trace s ++ [AddPeers node_id peers])
                    (count_message message s))) /\
  (forall err,
     proto_Unmarshal_Peers data = inl err ->
     handleMessage message s =
       Done (Some ErrShouldCloseConnectionAndExitLoop) (count_message message s)).
Proof.
  intros Hs Hn Hd.
  assert (Hm : handleMessage message s =
                 onRouteTable message data (count_message message s)).
  { rewrite (handleMessage_handshaken message data);
      try assumption; try (rewrite Hn; discriminate).
    rewrite bool_decide_eq_false_2 by (rewrite Hn; discriminate).
    rewrite bool_decide_eq_true_2 by assumption. reflexivity. }
  split.
  - intros peers Hp. rewrite Hm. unfold onRouteTable. rewrite Hp.
    unfold bind, emit, modify, ret. simpl. reflexivity.
  - intros err Hp. rewrite Hm. unfold onRouteTable. rewrite Hp. reflexivity.
Qed.

Lemma SendMessage_high (s : Stream) name data message :
  NewNebMessage s DefaultReserved 0 name data = inr message ->
  SendMessage name data MessagePriorityHigh s =
    bind (send_highPriorityMessageChan message)
      (fun _ => bind (trysend_messageNotifChan 1) (fun _ => ret None)) s.
Proof.
  intros H. unfold SendMessage, bind at 1, gets. simpl. rewrite H. reflexivity.
Qed.

(** X9. After the handshake, a SYNCROUTE message whose payload is not a
    compressed payload that fails to decompress is answered through the
    high-priority queue, not written by the read loop: the reply is a
    ROUTETABLE message listing the peers the route table picks for this
    peer; with room in the queue it is appended and the write loop is
    notified, the trace unchanged; when the queue is full the read loop
    parks at the send.  An error of the marshalling is returned as it is. *)
Theorem syncroute_message (s : Stream) (message : NebMessage) (data : list byte) :
  status s = streamStatusHandshakeSucceed ->
  MessageName message = SYNCROUTE ->
  received_payload message = inr data ->
  let s0 := count_message message s in
  let peers :=
    PbPeers (map (fun v => mkPeerInfo (peer_Pretty (Id v)) (Addrs v))
               (routeTable_GetRandomPeers (pid s))) in
  (forall err, proto_Marshal peers = inl err ->
     handleMessage message s = Done (Some err) s0) /\
  (forall bytes reply,
     proto_Marshal peers = inr bytes ->
     NewNebMessage s0 DefaultReserved 0 ROUTETABLE bytes = inr reply ->
     ((length (highPriorityMessageChan s) < cap_priorityMessageChan)%nat ->
        handleMessage message s =
          Done None (notified (set_highPriorityMessageChan
                                 (highPriorityMessageChan s ++ [reply]) s0))) /\
     ((cap_priorityMessageChan <= length (highPriorityMessageChan s))%nat ->
        exists k, handleMessage message s = Blocked WaitSendHighPriority s0 k)).
Proof.
  intros Hs Hn Hd s0 peers.
  assert (Hm : handleMessage message s =
                 SendProtoMessage ROUTETABLE peers MessagePriorityHigh s0).
  { rewrite (handleMessage_handshaken message data);
      try assumption; try (rewrite Hn; discriminate).
    rewrite bool_decide_eq_true_2 by assumption. reflexivity. }
  split.
  - intros err He. rewrite Hm. unfold SendProtoMessage. rewrite He. reflexivity.
  - intros bytes reply Hb Hf. rewrite Hm. unfold SendProtoMessage. rewrite Hb.
    rewrite (SendMessage_high s0 ROUTETABLE bytes reply Hf).
    split.
    + intros Hroom. unfold bind at 1, send_highPriorityMessageChan, blocking.
      change (ready WaitSendHighPriority s0) with
        (bool_decide (length (highPriorityMessageChan s) < cap_priorityMessageChan)%nat).
      rewrite (bool_decide_eq_true_2 _ Hroom). cbn [bind_res].
      apply notify_done.
    + intros Hfull. unfold bind at 1, send_highPriorityMessageChan, blocking.
      change (ready WaitSendHighPriority s0) with
        (bool_decide (length (highPriorityMessageChan s) < cap_priorityMessageChan)%nat).
      rewrite bool_decide_eq_false_2 by lia. cbn [bind_res].
      eexists. reflexivity.
Qed.

End HandlerFacts.

(** ** The write path and the write loop *)

Section WritePathFacts.
Context {Tr : Transport} {Pk : Package}.

(** X10. [Write] on a connected stream.  When the deadline cannot be set,
    the error is returned and nothing is written nor closed.  When the
    transport write fails, the stream is closed (here from a stream that is
    not closed yet: full teardown) and the error is returned.  When it
    succeeds, nil is returned, the time of the write is recorded and the
    status is untouched. *)
Theorem Write_outcomes (s : Stream) (c : Conn) (data : list byte) :
  stream s = Some c ->
  let deadline := clock s + writeTimeout data in
  let s1 c1 := set_stream (Some c1)
                 (set_trace (trace s ++ [TransportSetWriteDeadline deadline]) s) in
  let s2 c1 c2 := set_stream (Some c2)
                    (set_trace (trace s ++ [TransportSetWriteDeadline deadline;
                                            TransportWrite data]) s) in
  (forall err c1,
     SetWriteDeadline c deadline = (Some err, c1) ->
     Write data s = Done (Some err) (s1 c1)) /\
  (forall c1 n err c2,
     SetWriteDeadline c deadline = (None, c1) ->
     conn_Write c1 data = ((n, Some err), c2) ->
     syncMutex s = false -> status s <> streamStatusClosed -> quitWriteCh s = [] ->
     Write data s = Done (Some err) (torn_down (s2 c1 c2))) /\
  (forall c1 n c2,
     SetWriteDeadline c deadline = (None, c1) ->
     conn_Write c1 data = ((n, None), c2) ->
     Write data s = Done None (set_latestWriteAt (clock s / Second) (s2 c1 c2))).
Proof.
  intros Hc deadline s1 s2.
  split; [|split].
  - intros err c1 Hd. rewrite Write_cases, Hc. cbv zeta. fold deadline.
    rewrite Hd. reflexivity.
  - intros c1 n err c2 Hd Hw Hm Hs Hq. rewrite Write_cases, Hc. cbv zeta.
    fold deadline. rewrite Hd, Hw. unfold bind.
    rewrite close_tears_down by assumption. simpl. f_equal. f_equal.
    apply Stream_ext; simpl; rewrite <- ?app_assoc; reflexivity.
  - intros c1 n c2 Hd Hw. rewrite Write_cases, Hc. cbv zeta.
    fold deadline. rewrite Hd, Hw. f_equal. f_equal.
    apply Stream_ext; simpl; rewrite <- ?app_assoc; reflexivity.
Qed.

(** X11. The write loop writes nothing before the handshake barrier is
    signalled: while the barrier channel is empty, whatever case of its
    first [select] is taken (barrier, quit or timeout) and whatever would be
    woken afterwards, no payload is written on the transport and the three
    queues and the notification channel are left as they are. *)
Theorem writeLoop_waits_for_handshake (s : Stream) wake wakes :
  handshakeSucceedCh s = [] ->
  let r := writeLoop wake wakes s in
  queues (after r) = queues s /\
  messageNotifChan (after r) = messageNotifChan s /\
  exists new, trace (after r) = trace s ++ new /\ writes new = [].
Proof.
  intros Hh r. subst r. destruct wake; simpl.
  - unfold bind, gets. simpl. rewrite Hh. simpl.
    split; [reflexivity|]. split; [reflexivity|].
    exists []. rewrite app_nil_r. auto.
  - unfold bind, gets, modify, ret. simpl.
    destruct (quitWriteCh s); simpl;
      (split; [reflexivity|]); (split; [reflexivity|]);
      exists []; rewrite app_nil_r; auto.
  - destruct (close_frame (ErrOther "Handshake timeout") s) as ((Hq & Hn) & new & Ht & Hw).
    unfold bind.
    destruct (close _ s) as [[] s1|w s1 k]; simpl in *;
      (split; [assumption|]); (split; [assumption|]); eauto.
Qed.

(** X12. [close] lets the write loop go: after the teardown the quit
    channel holds one value, so that the write loop, in its handshake phase
    as in its drain phase, can take the quit case; it then returns without
    writing anything, the queued messages left unsent. *)
Theorem close_releases_writeLoop (s : Stream) reason wakes :
  syncMutex s = false -> status s <> streamStatusClosed -> quitWriteCh s = [] ->
  let s' := torn_down s in
  close reason s = Done tt s' /\
  writeLoop WakeHandshakeQuit wakes s' = Done LoopReturn (set_quitWriteCh [] s') /\
  writeLoop_drain (WakeQuit :: wakes) s' = Done LoopReturn (set_quitWriteCh [] s') /\
  queues (set_quitWriteCh [] s') = queues s.
Proof.
  intros Hm Hs Hq s'.
  assert (Hq' : quitWriteCh s' = [true]).
  { subst s'. unfold torn_down. simpl. rewrite Hq. destruct (stream s); reflexivity. }
  split; [apply close_tears_down; assumption|].
  split; [|split].
  - simpl. unfold bind, gets, modify, ret. simpl. rewrite Hq'. reflexivity.
  - simpl. unfold bind, gets, modify, ret. simpl. rewrite Hq'. reflexivity.
  - subst s'. unfold torn_down, queues. simpl. destruct (stream s); reflexivity.
Qed.

Lemma SendMessage_framed (s : Stream) name data priority message :
  NewNebMessage s DefaultReserved 0 name data = inr message ->
  SendMessage name data priority s =
    (if bool_decide (priority = MessagePriorityHigh) then
       bind (send_highPriorityMessageChan message)
         (fun _ => bind (trysend_messageNotifChan 1) (fun _ => ret None))
     else if bool_decide (priority = MessagePriorityNormal) then
       bind (trysend_normalPriorityMessageChan message)
         (fun sent : bool => if sent
            then bind (trysend_messageNotifChan 1) (fun _ => ret None)
            else ret None)
     else
       bind (trysend_lowPriorityMessageChan message)
         (fun sent : bool => if sent
            then bind (trysend_messageNotifChan 1) (fun _ => ret None)
            else ret None)) s.
Proof.
  intros Hmsg. unfold SendMessage, bind at 1, gets. simpl. rewrite Hmsg.
  repeat case_bool_decide; reflexivity.
Qed.

(** The stream after [SendMessage] on a stream whose queues and
    notification channel are empty. *)
Lemma SendMessage_on_idle (s : Stream) name data priority message :
  NewNebMessage s DefaultReserved 0 name data = inr message ->
  queued s = [] -> messageNotifChan s = [] ->
  exists s1,
    SendMessage name data priority s = Done None s1 /\
    messageNotifChan s1 = [1] /\ queued s1 = [message] /\
    writeLoop_notified (set_messageNotifChan [] s1) =
      bind (WriteNebMessage message) (fun _ => ret tt) s.
Proof.
  intros Hmsg Hq Hn. unfold queued in Hq.
  destruct (highPriorityMessageChan s) eqn:Hh; [|discriminate].
  destruct (normalPriorityMessageChan s) eqn:Hno; [|discriminate].
  destruct (lowPriorityMessageChan s) eqn:Hl; [|discriminate].
  rewrite (SendMessage_framed s name data priority message Hmsg).
  assert (Hback : forall s1 s2 : Stream,
    syncMutex s2 = syncMutex s -> pid s2 = pid s -> addr s2 = addr s ->
    stream s2 = stream s -> handshakeSucceedCh s2 = handshakeSucceedCh s ->
    messageNotifChan s2 = [] -> highPriorityMessageChan s2 = [] ->
    normalPriorityMessageChan s2 = [] -> lowPriorityMessageChan s2 = [] ->
    quitWriteCh s2 = quitWriteCh s -> status s2 = status s ->
    connectedAt s2 = connectedAt s -> latestReadAt s2 = latestReadAt s ->
    latestWriteAt s2 = latestWriteAt s -> msgCount s2 = msgCount s ->
    compressFlag s2 = compressFlag s -> clock s2 = clock s -> trace s2 = trace s ->
    s2 = s).
  { intros s1 s2. intros. apply Stream_ext; congruence. }
  destruct (bool_decide (priority = MessagePriorityHigh)).
  { unfold bind at 1, send_highPriorityMessageChan, blocking. simpl. rewrite Hh. simpl.
    rewrite notify_done. unfold notified. simpl. rewrite Hn. simpl.
    eexists. split; [reflexivity|]. unfold queued. simpl. rewrite Hno, Hl.
    split; [reflexivity|]. split; [reflexivity|].
    rewrite writeLoop_notified_cases. simpl. f_equal.
    apply (Hback s); simpl; auto. }
  destruct (bool_decide (priority = MessagePriorityNormal)).
  { unfold bind at 1, trysend_normalPriorityMessageChan. rewrite Hno. simpl.
    rewrite notify_done. unfold notified. simpl. rewrite Hn. simpl.
    eexists. split; [reflexivity|]. unfold queued. simpl. rewrite Hh, Hl.
    split; [reflexivity|]. split; [reflexivity|].
    rewrite writeLoop_notified_cases. simpl. rewrite Hh. f_equal.
    apply (Hback s); simpl; auto. }
  unfold bind at 1, trysend_lowPriorityMessageChan. rewrite Hl. simpl.
  rewrite notify_done. unfold notified. simpl. rewrite Hn. simpl.
  eexists. split; [reflexivity|]. unfold queued. simpl. rewrite Hh, Hno.
  split; [reflexivity|]. split; [reflexivity|].
  rewrite writeLoop_notified_cases. simpl. rewrite Hh, Hno. f_equal.
  apply (Hback s); simpl; auto.
Qed.

(** X13. Enqueue then dequeue is a direct write: on a stream whose queues
    and notification channel are empty, [SendMessage] with any priority
    followed by one notification of the write loop does what
    [WriteNebMessage] does to that message on the original stream, and
    leaves the queues and the notification channel empty again. *)
Theorem SendMessage_then_notification (s : Stream) name data priority message
    err (s' : Stream) :
  NewNebMessage s DefaultReserved 0 name data = inr message ->
  queued s = [] -> messageNotifChan s = [] ->
  WriteNebMessage message s = Done err s' ->
  bind (SendMessage name data priority) (fun _ => writeLoop_drain [WakeNotif]) s
    = Done LoopAwaiting s' /\
  queued s' = [] /\ messageNotifChan s' = [].
Proof.
  intros Hmsg Hq Hn Hw.
  destruct (SendMessage_on_idle s name data priority message Hmsg Hq Hn)
    as (s1 & Hsend & Hn1 & Hq1 & Hnote).
  split.
  - unfold bind at 1. rewrite Hsend. cbn [bind_res].
    rewrite writeLoop_drain_notif, Hn1, Hnote. unfold bind. rewrite Hw. reflexivity.
  - destruct (Write_frame (Content message) s) as ((Hqs & Hns) & _).
    unfold WriteNebMessage in Hw. rewrite Hw in Hqs, Hns. simpl in Hqs, Hns.
    rewrite Hns. split; [|assumption].
    rewrite queued_flat, Hqs, <- queued_flat. assumption.
Qed.

End WritePathFacts.

(** ** The read loop and [Bye] *)

Section ReadPathFacts.
Context {Tr : Transport} {Pk : Package}.

Lemma readLoop_reads_chunk chunk reads message buf (s : Stream) :
  readLoop_reads (inr chunk :: reads) message buf s =
    bind_res
      (readLoop_inner (S (S (length (buf ++ chunk)))) message (buf ++ chunk)
         (set_latestReadAt (clock s / Second) s))
      (fun o =>
         match o with
         | InnerBreak message messageBuffer => readLoop_reads reads message messageBuffer
         | InnerReturn => ret LoopReturn
         | InnerNext messageBuffer => readLoop_reads reads None messageBuffer
         end).
Proof. reflexivity. Qed.

Lemma readLoop_inner_step fuel message buf (s : Stream) :
  readLoop_inner (S fuel) message buf s =
    bind_res (readLoop_body message buf s)
      (fun o =>
         match o with
         | InnerNext messageBuffer => readLoop_inner fuel None messageBuffer
         | _ => ret o
         end).
Proof. reflexivity. Qed.

(** X14. The read loop keeps what does not make a frame yet.  After a
    read, a buffer shorter than a header is kept as it is; a buffer that
    holds a header of the right chain but not the whole payload leaves the
    parsed header pending and keeps the bytes after it; and while a header is
    pending, bytes are accumulated until the payload is complete.  In the
    three cases nothing is handled and the only change to the stream is the
    time of the read. *)
Theorem readLoop_keeps_partial_frames (s : Stream) (chunk buf : list byte)
    (reads : list (error + list byte)) :
  let s' := set_latestReadAt (clock s / Second) s in
  ((length (buf ++ chunk) < NebMessageHeaderLength)%nat ->
   readLoop_reads (inr chunk :: reads) None buf s =
     readLoop_reads reads None (buf ++ chunk) s') /\
  (forall message,
     (NebMessageHeaderLength <= length (buf ++ chunk))%nat ->
     ParseNebMessage (buf ++ chunk) = inr message ->
     node_ChainID = ChainID message ->
     (length (drop NebMessageHeaderLength (buf ++ chunk)) < DataLength message)%nat ->
     readLoop_reads (inr chunk :: reads) None buf s =
       readLoop_reads reads (Some message)
         (drop NebMessageHeaderLength (buf ++ chunk)) s') /\
  (forall pending,
     (length (buf ++ chunk) < DataLength pending)%nat ->
     readLoop_reads (inr chunk :: reads) (Some pending) buf s =
       readLoop_reads reads (Some pending) (buf ++ chunk) s').
Proof.
  intros s'. split; [|split].
  - intros Hl. rewrite readLoop_reads_chunk, readLoop_inner_step.
    unfold readLoop_body. rewrite (bool_decide_eq_true_2 _ Hl). reflexivity.
  - intros message Hl Hp Hc Hd. rewrite readLoop_reads_chunk, readLoop_inner_step.
    unfold readLoop_body. rewrite bool_decide_eq_false_2 by lia. rewrite Hp.
    rewrite (bool_decide_eq_true_2 _ Hc). cbn [negb].
    unfold readLoop_data. rewrite (bool_decide_eq_true_2 _ Hd). reflexivity.
  - intros pending Hl. rewrite readLoop_reads_chunk, readLoop_inner_step.
    unfold readLoop_body, readLoop_data. rewrite (bool_decide_eq_true_2 _ Hl).
    reflexivity.
Qed.

(** X15. Who speaks first.  The read loop of a stream that is not
    connected dials the peer and, before any read, writes one HELLO frame
    carrying the local node id and the client version; when that write fails
    the stream is closed and the loop returns.  The read loop of a stream
    that is connected already (an accepted one) dials nothing and writes
    nothing before it reads. *)
Theorem readLoop_opening (s : Stream) (reads : list (error + list byte)) :
  (stream s <> None -> readLoop reads s = readLoop_reads reads None [] s) /\
  (forall c a bytes hello,
     stream s = None ->
     host_NewStream (pid s) NebProtocolID = inr (c, a) ->
     let s1 := set_addr (Some a) (set_stream (Some c) s) in
     proto_Marshal (PbHello (mkHello (peer_String node_id) ClientVersion)) = inr bytes ->
     NewNebMessage s1 DefaultReserved 0 HELLO bytes = inr hello ->
     readLoop reads s =
       bind (Write (Content hello))
         (fun err =>
            match err with
            | Some err => bind (close err) (fun _ => ret LoopReturn)
            | None => readLoop_reads reads None []
            end) s1).
Proof.
  split.
  - intros Hc. unfold readLoop, bind at 1, gets, IsConnected. cbn [bind_res].
    destruct (stream s); [reflexivity|congruence].
  - intros c a bytes hello Hc Hd s1 Hm Hf.
    unfold readLoop, bind at 1, gets, IsConnected. cbn [bind_res]. rewrite Hc.
    unfold bind at 1, Connect, bind at 1, gets. cbn [bind_res]. rewrite Hd.
    unfold bind at 1, modify. cbn [bind_res].
    unfold bind at 1, modify. cbn [bind_res]. unfold ret at 1. cbn [bind_res].
    fold s1. unfold bind at 1, Hello, WriteProtoMessage. rewrite Hm.
    unfold WriteMessage, bind at 1, gets. cbn [bind_res]. unfold id. rewrite Hf.
    reflexivity.
Qed.

(** X16. [Bye] tears the stream down exactly once, whatever happens to its
    BYE frame.  On a stream that is not closed, with the mutex free and the
    quit channel empty, [Bye] returns without parking; the stream is closed,
    removed from the stream manager and from the peer streams once, the quit
    signal is sent once, and the transport, if there is one, is closed once:
    also when the frame cannot be built, when the stream is not connected, or
    when the write fails and [Write] has closed the stream already.  At most
    the BYE frame is written. *)
Theorem Bye_tears_down_once (s : Stream) :
  syncMutex s = false -> status s <> streamStatusClosed -> quitWriteCh s = [] ->
  exists s' new,
    Bye s = Done tt s' /\
    status s' = streamStatusClosed /\ syncMutex s' = false /\
    quitWriteCh s' = [true] /\
    trace s' = trace s ++ new /\
    occurrences RemoveStream new = 1%nat /\
    occurrences RemovePeerStream new = 1%nat /\
    occurrences QuitWriteSignal new = 1%nat /\
    occurrences TransportClose new = (if IsConnected s then 1 else 0)%nat /\
    (writes new = [] \/
     exists bye, NewNebMessage s DefaultReserved 0 BYE [] = inr bye /\
                 writes new = [Content bye]).
Proof.
  intros Hm Hs Hq.
  assert (Hdown : forall s0 : Stream, forall pre,
    syncMutex s0 = false -> status s0 <> streamStatusClosed -> quitWriteCh s0 = [] ->
    trace s0 = trace s ++ pre ->
    (stream s0 = None <-> stream s = None) ->
    status (torn_down s0) = streamStatusClosed /\ syncMutex (torn_down s0) = false /\
    quitWriteCh (torn_down s0) = [true] /\
    trace (torn_down s0) =
      trace s ++ pre ++ [RemoveStream; RemovePeerStream; QuitWriteSignal]
        ++ (if IsConnected s then [TransportClose] else [])).
  { intros s0 pre Hm0 Hs0 Hq0 Ht0 Hc0.
    rewrite torn_down_status, torn_down_syncMutex, torn_down_trace, Ht0, <- app_assoc.
    split; [reflexivity|]. split; [assumption|]. split.
    - unfold torn_down. simpl. rewrite Hq0. destruct (stream s0); reflexivity.
    - unfold IsConnected. destruct (stream s0), (stream s); try reflexivity.
      + destruct Hc0 as [_ H]. discriminate (H eq_refl).
      + destruct Hc0 as [H _]. discriminate (H eq_refl). }
  unfold Bye, bind at 1, WriteMessage, bind at 1, gets. cbn [bind_res]. unfold id.
  destruct (NewNebMessage s DefaultReserved 0 BYE []) as [err|bye] eqn:Hf.
  { unfold ret. cbn [bind_res]. rewrite close_tears_down by assumption.
    destruct (Hdown s [] Hm Hs Hq) as (H1 & H2 & H3 & H4);
      [rewrite app_nil_r; reflexivity|tauto|].
    eexists. eexists. split; [reflexivity|].
    split; [assumption|]. split; [assumption|]. split; [assumption|].
    split; [exact H4|].
    unfold IsConnected. destruct (stream s); simpl; auto 10. }
  unfold WriteNebMessage. rewrite Write_cases.
  destruct (stream s) as [c|] eqn:Hc.
  - cbv zeta. destruct (SetWriteDeadline c _) as [[err|] c1] eqn:Hd.
    + cbn [bind_res]. rewrite close_tears_down by assumption.
      match goal with |- context [torn_down ?s0] =>
        destruct (Hdown s0 [TransportSetWriteDeadline (clock s + writeTimeout (Content bye))])
          as (H1 & H2 & H3 & H4); try assumption;
          [reflexivity|simpl; rewrite ?Hc; split; discriminate|] end.
      eexists. eexists. split; [reflexivity|].
      split; [assumption|]. split; [assumption|]. split; [assumption|].
      split; [exact H4|].
      unfold IsConnected. rewrite Hc. simpl. auto 10.
    + destruct (conn_Write c1 (Content bye)) as [[n [err|]] c2] eqn:Hw.
      * unfold bind. rewrite close_tears_down by assumption. cbn [bind_res ret].
        match goal with |- context [torn_down ?s0] =>
          destruct (Hdown s0 [TransportSetWriteDeadline (clock s + writeTimeout (Content bye));
                              TransportWrite (Content bye)])
            as (H1 & H2 & H3 & H4); try assumption;
            [simpl; rewrite <- app_assoc; reflexivity
            |simpl; rewrite ?Hc; split; discriminate|] end.
        rewrite close_already_closed by assumption.
        eexists. eexists. split; [reflexivity|].
        split; [assumption|]. split; [assumption|]. split; [assumption|].
        split; [exact H4|].
        unfold IsConnected. rewrite Hc. simpl.
        split; [reflexivity|]. split; [reflexivity|]. split; [reflexivity|].
        split; [reflexivity|]. right. exists bye. auto.
      * cbn [bind_res]. rewrite close_tears_down by assumption.
        match goal with |- context [torn_down ?s0] =>
          destruct (Hdown s0 [TransportSetWriteDeadline (clock s + writeTimeout (Content bye));
                              TransportWrite (Content bye)])
            as (H1 & H2 & H3 & H4); try assumption;
            [simpl; rewrite <- app_assoc; reflexivity
            |simpl; rewrite ?Hc; split; discriminate|] end.
        eexists. eexists. split; [reflexivity|].
        split; [assumption|]. split; [assumption|]. split; [assumption|].
        split; [exact H4|].
        unfold IsConnected. rewrite Hc. simpl.
        split; [reflexivity|]. split; [reflexivity|]. split; [reflexivity|].
        split; [reflexivity|]. right. exists bye. auto.
  - unfold bind. rewrite close_tears_down by assumption. cbn [bind_res ret].
    destruct (Hdown s [] Hm Hs Hq) as (H1 & H2 & H3 & H4);
      [rewrite app_nil_r; reflexivity|tauto|].
    rewrite close_already_closed by assumption.
    eexists. eexists. split; [reflexivity|].
    split; [assumption|]. split; [assumption|]. split; [assumption|].
    split; [exact H4|].
    unfold IsConnected. rewrite Hc. simpl. auto 10.
Qed.

End ReadPathFacts.

(** ** Notifications and queued messages *)

Section BalanceFacts.
Context {Tr : Transport} {Pk : Package}.






























End BalanceFacts.

(** * Further runs on the concrete transport and package *)

Section FurtherRuns.
Import Sample.
#[local] Existing Instance Sample.transport.
#[local] Existing Instance Sample.package.

(** X3 on the accepted stream once closed: an application message handled
    afterwards leaves it closed. *)
Lemma closed_stays_closed_witness :
  status (after (handleMessage newblock (torn_down inbound))) = streamStatusClosed.
Proof.
  destruct (closed_stays_closed (torn_down inbound)) as (_ & H & _).
  apply (respects_after stays_closed (torn_down inbound)
           (handleMessage newblock (torn_down inbound))).
  - apply H; discriminate.
  - reflexivity.
Defined.

(** X5 on the accepted stream, for a BYE received before any handshake. *)
Lemma bye_ends_the_connection_witness :
  handleMessage (received Byte.x00 BYE []) inbound =
    Done (Some ErrShouldCloseConnectionAndExitLoop)
      (count_message (received Byte.x00 BYE []) inbound) /\
  status (after (readLoop_data (header_of Byte.x00 BYE []) [] inbound))
    = streamStatusClosed.
Proof.
  destruct (bye_ends_the_connection inbound (header_of Byte.x00 BYE [])
              (received Byte.x00 BYE []) [] []) as [H1 H2].
  - reflexivity.
  - reflexivity.
  - destruct H2 as (_ & _ & H3).
    + simpl. lia.
    + reflexivity.
    + split; [exact H1|]. apply H3. reflexivity.
Defined.

(** X6 on the accepted stream, for a valid HELLO and a valid OK. *)
Lemma handshake_through_handleMessage_witness :
  handleMessage valid_hello inbound = Ok (handshaken (count_message valid_hello inbound)) /\
  handleMessage valid_ok inbound = Done None (handshaken (count_message valid_ok inbound)).
Proof.
  split.
  - destruct (handshake_through_handleMessage inbound valid_hello
                (mkHello "remote" ClientVersion)) as [H _];
      [reflexivity|reflexivity|reflexivity|].
    apply H; reflexivity.
  - destruct (handshake_through_handleMessage inbound valid_ok
                (mkHello "remote" ClientVersion)) as [_ H];
      [reflexivity|reflexivity|reflexivity|].
    apply (H hello_payload); reflexivity.
Defined.

(** X7 on the handshaken stream, for the "newblock" message. *)
Lemma application_message_forwarded_witness :
  handleMessage newblock (handshaken inbound) =
    Done None
      (set_trace (trace (handshaken inbound) ++
                    [PutMessage "newblock" "remote" [Byte.x2a]; RecordRecvMessage 1])
         (count_message newblock (handshaken inbound))).
Proof.
  destruct (application_message_forwarded (handshaken inbound)
              (header_of Byte.x00 "newblock" [Byte.x2a]) newblock
              [Byte.x2a] [Byte.x2a]) as [H _];
    [reflexivity|discriminate|discriminate|discriminate|discriminate|discriminate
    |reflexivity|].
  exact H.
Defined.

(** X8 on the handshaken stream, for a ROUTETABLE message listing one
    peer. *)
Lemma routetable_message_witness :
  handleMessage (received Byte.x00 ROUTETABLE [Byte.x01]) (handshaken inbound) =
    Done None
      (set_trace (trace (handshaken inbound) ++ [AddPeers "local" [mkPeerInfo "" []]])
         (count_message (received Byte.x00 ROUTETABLE [Byte.x01]) (handshaken inbound))).
Proof.
  destruct (routetable_message (handshaken inbound)
              (received Byte.x00 ROUTETABLE [Byte.x01]) [Byte.x01]) as [H _];
    [reflexivity|reflexivity|reflexivity|].
  apply H. reflexivity.
Defined.

(** X9 on the handshaken stream: the reply to SYNCROUTE is queued. *)
Lemma syncroute_message_witness :
  handleMessage (received Byte.x00 SYNCROUTE []) (handshaken inbound) =
    Done None
      (notified
         (set_highPriorityMessageChan
            (highPriorityMessageChan (handshaken inbound)
               ++ [received Byte.x00 ROUTETABLE []])
            (count_message (received Byte.x00 SYNCROUTE []) (handshaken inbound)))).
Proof.
  destruct (syncroute_message (handshaken inbound)
              (received Byte.x00 SYNCROUTE []) []) as [_ H];
    [reflexivity|reflexivity|reflexivity|].
  destruct (H [] (received Byte.x00 ROUTETABLE [])) as [Hroom _];
    [reflexivity|reflexivity|].
  apply Hroom. simpl. apply Nat.lt_0_succ.
Defined.

(** X10 on the accepted stream, and on the one whose peer went away. *)
Lemma Write_outcomes_witness :
  (exists s', Write [Byte.x2a] inbound = Done None s' /\
              latestWriteAt s' = clock inbound / Second /\
              status s' = streamStatusInit) /\
  (exists s', Write [Byte.x2a] inbound_broken = Done (Some (ErrOther "broken pipe")) s' /\
              status s' = streamStatusClosed).
Proof.
  split.
  - pose proof (Write_outcomes inbound fresh_conn [Byte.x2a] eq_refl) as H.
    cbv zeta in H. destruct H as (_ & _ & H).
    eexists. split; [|split].
    + apply (H fresh_conn 1 (mkConn false false [[Byte.x2a]])); reflexivity.
    + reflexivity.
    + reflexivity.
  - pose proof (Write_outcomes inbound_broken broken_conn [Byte.x2a] eq_refl) as H.
    cbv zeta in H. destruct H as (_ & H & _).
    eexists. split.
    + apply (H broken_conn 0 (ErrOther "broken pipe") broken_conn);
        [reflexivity|reflexivity|reflexivity|discriminate|reflexivity].
    + reflexivity.
Defined.

(** X11 on the accepted stream with one message queued before the
    handshake. *)
Lemma writeLoop_waits_for_handshake_witness :
  let s := notified (set_highPriorityMessageChan [newblock] inbound) in
  let r := writeLoop WakeHandshakeSucceed [WakeNotif] s in
  queues (after r) = queues s /\
  messageNotifChan (after r) = messageNotifChan s /\
  exists new, trace (after r) = trace s ++ new /\ writes new = [].
Proof.
  exact (writeLoop_waits_for_handshake
           (notified (set_highPriorityMessageChan [newblock] inbound))
           WakeHandshakeSucceed [WakeNotif] eq_refl).
Defined.

(** X12 on the accepted stream. *)
Lemma close_releases_writeLoop_witness :
  close (ErrOther "bye: force close") inbound = Done tt (torn_down inbound) /\
  writeLoop WakeHandshakeQuit [] (torn_down inbound) =
    Done LoopReturn (set_quitWriteCh [] (torn_down inbound)).
Proof.
  pose proof (close_releases_writeLoop inbound (ErrOther "bye: force close") []
                eq_refl ltac:(discriminate) eq_refl) as H.
  cbv zeta in H. destruct H as (H1 & H2 & _). split; assumption.
Defined.

(** X13 on the accepted stream, for a "newblock" message of normal
    priority. *)
Lemma SendMessage_then_notification_witness :
  bind (SendMessage "newblock" [Byte.x2a] MessagePriorityNormal)
    (fun _ => writeLoop_drain [WakeNotif]) inbound
    = Done LoopAwaiting (after (WriteNebMessage newblock inbound)) /\
  writes (trace (after (WriteNebMessage newblock inbound))) = [Content newblock].
Proof.
  destruct (SendMessage_then_notification inbound "newblock" [Byte.x2a]
              MessagePriorityNormal newblock None
              (after (WriteNebMessage newblock inbound))) as [H _].
  - reflexivity.
  - reflexivity.
  - reflexivity.
  - vm_compute. reflexivity.
  - split; [exact H|]. vm_compute. reflexivity.
Defined.

(** X14 on the accepted stream: three bytes of a header; a whole header
    without its payload; and an empty read while a payload is awaited. *)
Lemma readLoop_keeps_partial_frames_witness :
  let s' := set_latestReadAt (clock inbound / Second) inbound in
  let header := take header_length (frame Byte.x00 "newblock" [Byte.x2a]) in
  readLoop_reads [inr (take 3 header)] None [] inbound =
    Done LoopAwaiting s' /\
  readLoop_reads [inr header] None [] inbound =
    readLoop_reads [] (Some (header_of Byte.x00 "newblock" [Byte.x2a])) [] s' /\
  readLoop_reads [inr []] (Some (header_of Byte.x00 "newblock" [Byte.x2a])) [] inbound =
    Done LoopAwaiting s'.
Proof.
  cbv zeta. split; [|split].
  - destruct (readLoop_keeps_partial_frames inbound
                (take 3 (take header_length (frame Byte.x00 "newblock" [Byte.x2a])))
                [] []) as (H & _).
    apply H. vm_compute. lia.
  - destruct (readLoop_keeps_partial_frames inbound
                (take header_length (frame Byte.x00 "newblock" [Byte.x2a]))
                [] []) as (_ & H & _).
    apply (H (header_of Byte.x00 "newblock" [Byte.x2a])).
    + vm_compute. lia.
    + reflexivity.
    + reflexivity.
    + vm_compute. lia.
  - destruct (readLoop_keeps_partial_frames inbound [] [] []) as (_ & _ & H).
    apply (H (header_of Byte.x00 "newblock" [Byte.x2a])). vm_compute. lia.
Defined.

(** X15 on the stream created from a peer id, and on the accepted one. *)
Lemma readLoop_opening_witness :
  let dialled := set_addr (Some "/ip4/127.0.0.1/tcp/8680"%string)
                   (set_stream (Some fresh_conn) outbound) in
  let hello := received Byte.x00 HELLO (marshal_hello (mkHello "local" ClientVersion)) in
  readLoop [] outbound =
    bind (Write (Content hello))
      (fun err =>
         match err with
         | Some err => bind (close err) (fun _ => ret LoopReturn)
         | None => readLoop_reads [] None []
         end) dialled /\
  writes (trace (after (readLoop [] outbound))) = [Content hello] /\
  readLoop [] inbound = Done LoopAwaiting inbound.
Proof.
  cbv zeta. split; [|split].
  - destruct (readLoop_opening outbound []) as [_ H].
    apply (H fresh_conn "/ip4/127.0.0.1/tcp/8680"%string
             (marshal_hello (mkHello "local" ClientVersion))); reflexivity.
  - vm_compute. reflexivity.
  - destruct (readLoop_opening inbound []) as [H _].
    rewrite H; [reflexivity|discriminate].
Defined.

(** X16 on the accepted stream and on the one that is not connected. *)
Lemma Bye_tears_down_once_witness :
  (exists s' new,
     Bye inbound = Done tt s' /\ trace s' = trace inbound ++ new /\
     occurrences RemoveStream new = 1%nat /\ occurrences TransportClose new = 1%nat) /\
  (exists s' new,
     Bye outbound = Done tt s' /\ trace s' = trace outbound ++ new /\
     occurrences RemoveStream new = 1%nat /\ occurrences TransportClose new = 0%nat).
Proof.
  split.
  - destruct (Bye_tears_down_once inbound eq_refl ltac:(discriminate) eq_refl)
      as (s' & new & H1 & _ & _ & _ & H2 & H3 & _ & _ & H4 & _).
    exists s', new. auto.
  - destruct (Bye_tears_down_once outbound eq_refl ltac:(discriminate) eq_refl)
      as (s' & new & H1 & _ & _ & _ & H2 & H3 & _ & _ & H4 & _).
    exists s', new. auto.
Defined.


End FurtherRuns.
